(** * The TV-guide plugin's data scripts, embedded in Rocq

    The repository holds three batch scripts.  This development embeds the
    two the specification states properties of,

    - [scripts/generate-channels.py]: the countries cache with its
      staleness check, and the per-country channel fetcher;
    - [scripts/generate-options.py]: the join of the two cached datasets
      into a sorted list of selectable options;

    and proves the properties the specification states about them.  It
    then goes on to the runs of these two as a whole, and to the third,

    - [scripts/generate-stub-data.py]: the fetcher of the programs of the
      test channels.

    Conventions.  Python [str] values are Rocq strings (byte strings, so
    that text is compared by code unit, which for UTF-8 agrees with
    Python's comparison by code point).  A dictionary read only by key is a
    [gmap]; a dictionary whose iteration order is observable is a list of
    items.  A field read with a subscript ([d["k"]]) is a mandatory record
    field, a field read with [.get] is an optional one.  What lies outside
    the scripts (the HTTP API, the clock, the datetime parser of the
    standard library, and [str.lower] where it decides the order of the
    options) is a parameter of the model. *)

From Stdlib Require Import ZArith Ascii String OrdersEx.
From stdpp Require Import base option list gmap strings sorting.

Local Open Scope Z_scope.

(** ** Python built-ins on text *)

Module Py.

(** [str.lower] as far as the letters A to Z go; other code units are
    left alone.  It serves where the lowered text is searched for an ASCII
    phrase, and as [str.lower] on the ASCII labels of the worked examples. *)
Definition lower_char (c : ascii) : ascii :=
  let n := N_of_ascii c in
  if ((65 <=? n) && (n <=? 90))%N then ascii_of_N (n + 32) else c.

Fixpoint lower (s : string) : string :=
  match s with
  | EmptyString => EmptyString
  | String c s' => String (lower_char c) (lower s')
  end.

(** [needle in haystack] on strings. *)
Fixpoint contains (needle haystack : string) : bool :=
  String.prefix needle haystack ||
  match haystack with
  | EmptyString => false
  | String _ rest => contains needle rest
  end.

(** [s.replace("Z", "")]: every occurrence of the one-character string
    is dropped. *)
Fixpoint replace_Z (s : string) : string :=
  match s with
  | EmptyString => EmptyString
  | String c s' => if Ascii.eqb c "Z" then replace_Z s' else String c (replace_Z s')
  end.

(** [bool(s)] for a string. *)
Definition truthy (s : string) : bool :=
  match s with EmptyString => false | _ => true end.

(** [a < b] on strings, on booleans ([False < True]) and on the pairs the
    sort keys are made of (tuples compare lexicographically). *)
Definition str_lt (a b : string) : bool := String.ltb a b.

Definition bool_lt (a b : bool) : bool := negb a && b.

Definition pair_lt (a b : bool * string) : bool :=
  if Bool.eqb a.1 b.1 then str_lt a.2 b.2 else bool_lt a.1 b.1.

(** [list.sort(key=...)]: keys are compared with [<] only and the sort is
    stable.  For a key order that is total the result of a stable sort is
    determined by its input, so inserting the elements from the right,
    each one in front of the first element that is not smaller, computes
    the list Python's sort returns. *)
Section sort.
Context {A K : Type} (lt : K → K → bool) (key : A → K).

Fixpoint insert_by (x : A) (l : list A) : list A :=
  match l with
  | [] => [x]
  | y :: l' => if lt (key y) (key x) then y :: insert_by x l' else x :: y :: l'
  end.

Definition sort_by (l : list A) : list A := foldr insert_by [] l.

(** [x] may stand before [y]: the key of [y] is not smaller. *)
Definition key_le (x y : A) : Prop := lt (key y) (key x) = false.
End sort.

(** A strict total order, given by its boolean test. *)
Class StrictTotal {K : Type} (lt : K → K → bool) : Prop := {
  lt_irrefl a : lt a a = false;
  lt_trans a b c : lt a b = true → lt b c = true → lt a c = true;
  lt_total a b : lt a b = false → lt b a = false → a = b
}.

End Py.

(** ** Files and failures *)

(** What a path holds.  [Torn] is a file that was opened for writing, and
    so truncated, whose new content has not been written out in full:
    [json.load] rejects it. *)
Inductive file (A : Type) : Type :=
  | Missing
  | Torn
  | Doc (content : A).
Arguments Missing {A}.
Arguments Torn {A}.
Arguments Doc {A} content.

(** [with open(path, 'w') as f: json.dump(content, f)] goes through two
    states of the disk: the file truncated by [open], then the file
    holding the new document. *)
Definition open_for_writing {A} (f : file A) : file A := Torn.
Definition dump_and_close {A} (content : A) (f : file A) : file A := Doc content.

Definition write_steps {A} (content : A) : list (file A → file A) :=
  [open_for_writing; dump_and_close content].

Definition run_steps {A} (steps : list (file A → file A)) (f : file A) : file A :=
  foldl (λ f step, step f) f steps.

Definition write_file {A} (content : A) (f : file A) : file A :=
  run_steps (write_steps content) f.

(** The disk when the process is stopped after [n] steps of the write. *)
Definition interrupted_write {A} (n : nat) (content : A) (f : file A) : file A :=
  run_steps (take n (write_steps content)) f.

(** The exceptions that escape the scripts' own handlers. *)
Inductive exn : Type :=
  | TypeError
  | JSONDecodeError.

Inductive result (A : Type) : Type :=
  | Returns (a : A)
  | Raises (e : exn).
Arguments Returns {A} a.
Arguments Raises {A} e.

(** ** [datetime]

    A [datetime] is its wall-clock reading in microseconds since
    0001-01-01T00:00:00 and, when it is offset-aware, its UTC offset in
    microseconds.  [datetime.utcnow()] returns a naive one. *)
Record datetime : Type := {
  wall : Z;
  utcoffset : option Z
}.

Definition naive (t : Z) : datetime := {| wall := t; utcoffset := None |}.

(** [a - b]: a [timedelta] in microseconds.  Python refuses to subtract a
    naive and an aware datetime. *)
Definition datetime_sub (a b : datetime) : result Z :=
  match utcoffset a, utcoffset b with
  | None, None => Returns (wall a - wall b)
  | Some oa, Some ob => Returns ((wall a - oa) - (wall b - ob))
  | _, _ => Raises TypeError
  end.

(** [timedelta(days=d)], for the day counts [timedelta] accepts. *)
Definition timedelta_days (d : Z) : Z := d * 86400000000.

(** ** A reference [fromisoformat] and [isoformat]

    The standard library's parser and printer are parameters of the model
    below.  This module gives one concrete pair for worked examples: the
    format [isoformat] prints, [YYYY-MM-DD] optionally followed by a
    separator and [HH:MM:SS], by a fraction of three or six digits, and by
    a UTC offset [+HH:MM] or [-HH:MM].  On these strings it agrees with
    every Python release that has [datetime.fromisoformat]. *)
Module Iso.

Definition digit (c : ascii) : option Z :=
  let n := Z.of_N (N_of_ascii c) in
  if (48 <=? n) && (n <=? 57) then Some (n - 48) else None.

Fixpoint number_from (acc : Z) (cs : list ascii) : option Z :=
  match cs with
  | [] => Some acc
  | c :: cs' => d ← digit c; number_from (acc * 10 + d) cs'
  end.

Definition number (cs : list ascii) : option Z := number_from 0 cs.

Definition is_leap (y : Z) : bool :=
  (y mod 4 =? 0) && (negb (y mod 100 =? 0) || (y mod 400 =? 0)).

Definition days_in_month (y m : Z) : Z :=
  if m =? 2 then (if is_leap y then 29 else 28)
  else if (m =? 4) || (m =? 6) || (m =? 9) || (m =? 11) then 30 else 31.

Definition days_before_year (y : Z) : Z :=
  let p := y - 1 in p * 365 + p / 4 - p / 100 + p / 400.

Definition days_before_month (y m : Z) : Z :=
  foldr (λ k acc, days_in_month y k + acc) 0 (seqZ 1 (m - 1)).

(** Days since 0001-01-01, which is day 0. *)
Definition day_number (y m d : Z) : Z :=
  days_before_year y + days_before_month y m + d - 1.

Definition in_range (lo x hi : Z) : bool := (lo <=? x) && (x <=? hi).

Definition parse_date (cs : list ascii) : option Z :=
  match cs with
  | [y1; y2; y3; y4; dash1; m1; m2; dash2; d1; d2] =>
      y ← number [y1; y2; y3; y4]; m ← number [m1; m2]; d ← number [d1; d2];
      if Ascii.eqb dash1 "-" && Ascii.eqb dash2 "-" && in_range 1 y 9999
         && in_range 1 m 12 && in_range 1 d (days_in_month y m)
      then Some (day_number y m d) else None
  | _ => None
  end.

(** [HH:MM:SS] as seconds. *)
Definition parse_hms (cs : list ascii) : option Z :=
  match cs with
  | [h1; h2; c1; m1; m2; c2; s1; s2] =>
      h ← number [h1; h2]; m ← number [m1; m2]; s ← number [s1; s2];
      if Ascii.eqb c1 ":" && Ascii.eqb c2 ":" && in_range 0 h 23
         && in_range 0 m 59 && in_range 0 s 59
      then Some (h * 3600 + m * 60 + s) else None
  | _ => None
  end.

(** The fraction, in microseconds: absent, [.fff] or [.ffffff]. *)
Definition parse_fraction (cs : list ascii) : option Z :=
  match cs with
  | [] => Some 0
  | dot :: ds =>
      if Ascii.eqb dot "." then
        match length ds with
        | 3%nat => (λ n, n * 1000) <$> number ds
        | 6%nat => number ds
        | _ => None
        end
      else None
  end.

(** The offset, in microseconds: [+HH:MM] or [-HH:MM]. *)
Definition parse_offset (cs : list ascii) : option Z :=
  match cs with
  | [sign; h1; h2; colon; m1; m2] =>
      h ← number [h1; h2]; m ← number [m1; m2];
      if Ascii.eqb colon ":" && in_range 0 h 23 && in_range 0 m 59 then
        if Ascii.eqb sign "+" then Some ((h * 3600 + m * 60) * 1000000)
        else if Ascii.eqb sign "-" then Some (- ((h * 3600 + m * 60) * 1000000))
        else None
      else None
  | _ => None
  end.

Definition is_sign (c : ascii) : bool := Ascii.eqb c "+" || Ascii.eqb c "-".

(** Splits what follows the seconds into the fraction and the offset. *)
Fixpoint split_at_sign (cs : list ascii) : list ascii * list ascii :=
  match cs with
  | [] => ([], [])
  | c :: cs' =>
      if is_sign c then ([], cs)
      else let '(l, r) := split_at_sign cs' in (c :: l, r)
  end.

Definition parse_time (cs : list ascii) : option (Z * option Z) :=
  let '(hms, tail) := (take 8 cs, drop 8 cs) in
  let '(frac, off) := split_at_sign tail in
  s ← parse_hms hms; us ← parse_fraction frac;
  match off with
  | [] => Some (s * 1000000 + us, None)
  | _ => o ← parse_offset off; Some (s * 1000000 + us, Some o)
  end.

(** [None] stands for [ValueError]. *)
Definition fromisoformat (s : string) : option datetime :=
  let cs := list_ascii_of_string s in
  day ← parse_date (take 10 cs);
  match drop 10 cs with
  | [] => Some (naive (day * 86400000000))
  | _separator :: time =>
      '(us, off) ← parse_time time;
      Some {| wall := day * 86400000000 + us; utcoffset := off |}
  end.

(** Printing.  The civil date of a day number, by the usual era and
    day-of-era computation on a year that starts in March. *)
Definition civil (day : Z) : Z * Z * Z :=
  let z := day + 306 in
  let era := z / 146097 in
  let doe := z - era * 146097 in
  let yoe := (doe - doe / 1460 + doe / 36524 - doe / 146096) / 365 in
  let doy := doe - (365 * yoe + yoe / 4 - yoe / 100) in
  let mp := (5 * doy + 2) / 153 in
  let d := doy - (153 * mp + 2) / 5 + 1 in
  let m := if mp <? 10 then mp + 3 else mp - 9 in
  let y := yoe + era * 400 + (if m <=? 2 then 1 else 0) in
  (y, m, d).

Definition digit_char (d : Z) : ascii := ascii_of_N (Z.to_N (48 + d mod 10)).

(** [n] in decimal, padded with zeros to [width] digits. *)
Fixpoint padded (width : nat) (n : Z) : list ascii :=
  match width with
  | O => []
  | S w => padded w (n / 10) ++ [digit_char n]
  end.

(** [datetime.isoformat()] of a naive datetime. *)
Definition isoformat (t : Z) : string :=
  let day := t / 86400000000 in
  let rest := t mod 86400000000 in
  let '(y, m, d) := civil day in
  let s := rest / 1000000 in
  let us := rest mod 1000000 in
  string_of_list_ascii
    (padded 4 y ++ ["-"%char] ++ padded 2 m ++ ["-"%char] ++ padded 2 d
     ++ ["T"%char] ++ padded 2 (s / 3600) ++ [":"%char]
     ++ padded 2 (s / 60 mod 60) ++ [":"%char] ++ padded 2 (s mod 60)
     ++ (if us =? 0 then [] else "."%char :: padded 6 us)).

End Iso.

(** ** [scripts/generate-channels.py]

    The script's effects are the two cache files, the requests it sends
    and the clock it reads; what it prints is left out. *)

Module GenerateChannels.

Definition COUNTRIES_MAX_AGE_DAYS : Z := 7.

(** A country as this script reads it: [country["id"]], [country["name"]]. *)
Record country : Type := {
  country_id : string;
  country_name : string
}.

(** The channels of one country as the API returns them, a JSON array of
    objects; the script stores it without looking inside. *)
Definition channel_list : Type := list (list (string * string)).

(** [countries.json]: [{"data": ..., "timestamp": ...}]. *)
Record countries_cache : Type := {
  cache_data : list country;
  cache_timestamp : option string
}.

(** One value of [channels.json], which maps a country id to
    [{"data": ..., "timestamp": ...}]. *)
Record channels_entry : Type := {
  entry_data : channel_list;
  entry_timestamp : option string
}.

(** *** The world outside the script *)

Inductive request : Type :=
  | Countries
  | ChannelsOfCountry (id : string).

(** What the three lines [requests.get], [raise_for_status], [json] give:
    the decoded body, or a [requests.RequestException] (a network error,
    or the [HTTPError] that [raise_for_status] raises for an error
    status), kept as its text [str(e)]. *)
Inductive response (A : Type) : Type :=
  | Payload (body : A)
  | RequestException (text : string).
Arguments Payload {A} body.
Arguments RequestException {A} text.

(** The API answers as a function of the requests made before, the clock
    as a function of how often it was read before. *)
Record env : Type := {
  api_countries : list request → response (list country);
  api_channels : list request → string → response channel_list;
  clock : nat → Z;
  fromisoformat : string → option datetime;
  isoformat : Z → string
}.

Record world : Type := {
  countries_file : file countries_cache;
  channels_file : file (gmap string channels_entry);
  requests : list request;
  clock_reads : nat
}.

Definition set_countries_file (f : file countries_cache) (w : world) : world :=
  {| countries_file := f; channels_file := channels_file w;
     requests := requests w; clock_reads := clock_reads w |}.

Definition set_channels_file (f : file (gmap string channels_entry)) (w : world) : world :=
  {| countries_file := countries_file w; channels_file := f;
     requests := requests w; clock_reads := clock_reads w |}.

Definition log_request (r : request) (w : world) : world :=
  {| countries_file := countries_file w; channels_file := channels_file w;
     requests := requests w ++ [r]; clock_reads := clock_reads w |}.

Definition tick (w : world) : world :=
  {| countries_file := countries_file w; channels_file := channels_file w;
     requests := requests w; clock_reads := S (clock_reads w) |}.

(** *** Computations: a state over the world, with exceptions *)

Definition M (A : Type) : Type := world → result A * world.

#[export] Instance M_ret : MRet M := λ A a w, (Returns a, w).

#[export] Instance M_bind : MBind M := λ A B f m w,
  match m w with
  | (Returns a, w') => f a w'
  | (Raises e, w') => (Raises e, w')
  end.

Definition raise {A} (e : exn) : M A := λ w, (Raises e, w).

Definition lift {A} (r : result A) : M A := λ w, (r, w).

Definition modify (f : world → world) : M unit := λ w, (Returns (), f w).

Definition utcnow (E : env) : M datetime :=
  λ w, (Returns (naive (clock E (clock_reads w))), tick w).

Definition http_get_countries (E : env) : M (response (list country)) :=
  λ w, (Returns (api_countries E (requests w)), log_request Countries w).

Definition http_get_channels (E : env) (id : string) : M (response channel_list) :=
  λ w, (Returns (api_channels E (requests w) id), log_request (ChannelsOfCountry id) w).

(** *** The script *)

Definition get_utc_timestamp (E : env) : M string :=
  now ← utcnow E;
  mret (isoformat E (wall now) +:+ "Z").

(** The handler [except (ValueError, AttributeError)] catches the
    [ValueError] of the parser; [AttributeError] cannot arise from a
    string.  The [TypeError] of the subtraction is not caught. *)
Definition is_data_stale (E : env) (timestamp_str : string) (max_age_days : Z) : M bool :=
  match fromisoformat E (Py.replace_Z timestamp_str) with
  | None => mret true
  | Some timestamp =>
      now ← utcnow E;
      age ← lift (datetime_sub now timestamp);
      mret (age >? timedelta_days max_age_days)
  end.

Definition fetch_countries (E : env) : M (option (list country)) :=
  resp ← http_get_countries E;
  match resp with
  | Payload countries =>
      timestamp ← get_utc_timestamp E;
      let data := {| cache_data := countries; cache_timestamp := Some timestamp |} in
      _ ← modify (λ w, set_countries_file (write_file data (countries_file w)) w);
      mret (Some countries)
  | RequestException _ => mret None
  end.

(** The file exists unless it is [Missing]; [json.load] raises on a file
    that does not hold a document. *)
Definition load_countries (E : env) : M (option (list country)) :=
  λ w,
    match countries_file w with
    | Missing => fetch_countries E w
    | Torn => raise JSONDecodeError w
    | Doc data =>
        (stale ← is_data_stale E (default "" (cache_timestamp data)) COUNTRIES_MAX_AGE_DAYS;
         if negb stale then mret (Some (cache_data data)) else fetch_countries E) w
    end.

Definition load_channels_data : M (gmap string channels_entry) :=
  λ w,
    match channels_file w with
    | Missing => (Returns ∅, w)
    | Torn => raise JSONDecodeError w
    | Doc channels_data => (Returns channels_data, w)
    end.

Definition is_rate_limit (text : string) : bool :=
  Py.contains "429" text || Py.contains "rate limit" (Py.lower text).

(** The dictionary [all_channels_data] is updated in place; the model
    returns it next to the function's result, which is [True], [False] or
    [None]. *)
Definition fetch_channels_for_country (E : env) (id name : string)
    (all_channels_data : gmap string channels_entry)
    : M (option bool * gmap string channels_entry) :=
  resp ← http_get_channels E id;
  match resp with
  | Payload channels =>
      timestamp ← get_utc_timestamp E;
      let all_channels_data :=
        <[id := {| entry_data := channels; entry_timestamp := Some timestamp |}]>
          all_channels_data in
      _ ← modify (λ w, set_channels_file (write_file all_channels_data (channels_file w)) w);
      mret (Some true, all_channels_data)
  | RequestException text =>
      if is_rate_limit text then mret (Some false, all_channels_data)
      else mret (None, all_channels_data)
  end.

(** An element of [countries_to_fetch]: id, name, and [None] or the
    timestamp of the existing entry. *)
Definition work_item : Type := string * string * option string.

Definition categorize (channels_data : gmap string channels_entry)
    (countries : list country) : list work_item :=
  map (λ c,
         match channels_data !! country_id c with
         | None => (country_id c, country_name c, None)
         | Some entry => (country_id c, country_name c, Some (default "" (entry_timestamp entry)))
         end) countries.

(** [lambda x: (x[2] is not None, x[2] or "")] *)
Definition sort_key (x : work_item) : bool * string :=
  match x.2 with
  | None => (false, "")
  | Some timestamp => (true, if Py.truthy timestamp then timestamp else "")
  end.

Definition fetch_order (channels_data : gmap string channels_entry)
    (countries : list country) : list work_item :=
  Py.sort_by Py.pair_lt sort_key (categorize channels_data countries).

Inductive loop_exit : Type := Exhausted | Break.

(** The [for] loop of [main].  [time.sleep(0.5)] between two fetches
    changes nothing the model records. *)
Fixpoint fetch_loop (E : env) (todo : list work_item)
    (channels_data : gmap string channels_entry)
    : M (loop_exit * gmap string channels_entry) :=
  match todo with
  | [] => mret (Exhausted, channels_data)
  | (id, name, _) :: rest =>
      '(result, channels_data) ← fetch_channels_for_country E id name channels_data;
      match result with
      | Some false => mret (Break, channels_data)
      | _ => fetch_loop E rest channels_data
      end
  end.

Definition main (E : env) : M unit :=
  countries ← load_countries E;
  match countries with
  | None | Some [] => mret ()
  | Some countries =>
      channels_data ← load_channels_data;
      _ ← fetch_loop E (fetch_order channels_data countries) channels_data;
      mret ()
  end.

(** *** The vocabulary of the specification *)

(** What [main] records for a country: [None] without an entry in the
    keyed cache, the entry's timestamp (or [""]) with one. *)
Definition recorded (channels_data : gmap string channels_entry) (id : string)
    : option string :=
  (λ entry, default "" (entry_timestamp entry)) <$> channels_data !! id.

(** The cache is fresh: the file is there, its timestamp parses and is
    at most [COUNTRIES_MAX_AGE_DAYS] old.  It is to be refreshed: the file
    is missing, or its timestamp is absent or does not parse, or is older. *)
Definition cache_fresh (E : env) (w : world) (data : countries_cache) : Prop :=
  countries_file w = Doc data ∧
  ∃ t, fromisoformat E (Py.replace_Z (default "" (cache_timestamp data))) = Some (naive t) ∧
       clock E (clock_reads w) - t ≤ timedelta_days COUNTRIES_MAX_AGE_DAYS.

Definition cache_to_refresh (E : env) (w : world) : Prop :=
  countries_file w = Missing ∨
  ∃ data, countries_file w = Doc data ∧
    (fromisoformat E (Py.replace_Z (default "" (cache_timestamp data))) = None ∨
     ∃ t, fromisoformat E (Py.replace_Z (default "" (cache_timestamp data))) = Some (naive t) ∧
          clock E (clock_reads w) - t > timedelta_days COUNTRIES_MAX_AGE_DAYS).

(** The entry a successful fetch stores, stamped with the clock. *)
Definition fetched_entry (E : env) (w : world) (channels : channel_list) : channels_entry :=
  {| entry_data := channels;
     entry_timestamp := Some (isoformat E (clock E (clock_reads w)) +:+ "Z") |}.

(** The file holds a document with the entry [e] under the key [k]. *)
Definition holds (f : file (gmap string channels_entry)) (k : string)
    (e : channels_entry) : Prop :=
  ∃ m, f = Doc m ∧ m !! k = Some e.

(** Every entry on the disk is in the dictionary in memory. *)
Definition loaded (w : world) (channels_data : gmap string channels_entry) : Prop :=
  ∀ k e, holds (channels_file w) k e → channels_data !! k = Some e.

(** Rewriting the file [old] with the document [new] for the key [id] is
    safe against interruption when, stopped after any number of steps, the
    file still holds every entry it held under another key. *)
Definition survives_interruption (id : string)
    (old : file (gmap string channels_entry))
    (new : gmap string channels_entry) : Prop :=
  ∀ n k e, k ≠ id → holds old k e → holds (interrupted_write n new old) k e.

End GenerateChannels.

(** ** [scripts/generate-options.py] *)

Module GenerateOptions.

(** A country as this script reads it: [country["id"]], and
    [country.get] for the two names. *)
Record country : Type := {
  country_id : string;
  country_display_name : option string;
  country_name : option string
}.

(** A channel: all three fields are read with [channel.get]. *)
Record channel : Type := {
  channel_id : option string;
  channel_display_name : option string;
  channel_name : option string
}.

(** [countries.json] and one value of [channels.json]; of both this
    script reads [.get("data", [])] only. *)
Record countries_cache : Type := { cache_data : option (list country) }.
Record channels_entry : Type := { entry_data : option (list channel) }.

(** [channels.json] as [json.load] returns it, a dictionary whose items
    come in the order of the file. *)
Definition channels_dict : Type := list (string * channels_entry).

#[export] Instance result_ret : MRet result := λ A a, Returns a.

#[export] Instance result_bind : MBind result := λ A B f m,
  match m with
  | Returns a => f a
  | Raises e => Raises e
  end.

Definition load_countries (countries_file : file countries_cache)
    : result (option (list country)) :=
  match countries_file with
  | Missing => Returns None
  | Torn => Raises JSONDecodeError
  | Doc data => Returns (Some (default [] (cache_data data)))
  end.

Definition load_channels (channels_file : file channels_dict)
    : result (option channels_dict) :=
  match channels_file with
  | Missing => Returns None
  | Torn => Raises JSONDecodeError
  | Doc channels_data => Returns (Some channels_data)
  end.

(** [x.get("display_name", x.get("name", "Unknown"))] *)
Definition display_name (display_name name : option string) : string :=
  default (default "Unknown" name) display_name.

(** [{country["id"]: country for country in countries}]: of two countries
    with one id the later one stays. *)
Definition country_map (countries : list country) : gmap string country :=
  foldl (λ m c, <[country_id c := c]> m) ∅ countries.

(** The variables the loops update.  Of the console output the model
    keeps the warnings of the outer loop. *)
Record generated : Type := {
  channel_options : list (string * string);
  total_channels : nat;
  warnings : list string
}.

(** The body of [for channel in channels]. *)
Definition add_channel (country_display_name : string) (acc : generated)
    (ch : channel) : generated :=
  let channel_display_name := display_name (channel_display_name ch) (channel_name ch) in
  match channel_id ch with
  | Some id =>
      if Py.truthy id then
        let option_key := country_display_name +:+ " - " +:+ channel_display_name in
        let value := id +:+ "|" +:+ channel_display_name in
        {| channel_options := channel_options acc ++ [(option_key, value)];
           total_channels := S (total_channels acc);
           warnings := warnings acc |}
      else acc
  | None => acc
  end.

Definition unknown_country_warning (id : string) : string :=
  "Warning: Country ID " +:+ id +:+ " not found in countries data".

(** The body of [for country_id, country_channels in channels_data.items()]. *)
Definition add_country (countries : gmap string country) (acc : generated)
    (item : string * channels_entry) : generated :=
  let '(id, country_channels) := item in
  match countries !! id with
  | None =>
      {| channel_options := channel_options acc;
         total_channels := total_channels acc;
         warnings := warnings acc ++ [unknown_country_warning id] |}
  | Some c =>
      foldl (add_channel (display_name (country_display_name c) (country_name c)))
        acc (default [] (entry_data country_channels))
  end.

Definition nothing_generated : generated :=
  {| channel_options := []; total_channels := 0; warnings := [] |}.

(** The block under "Build channel options": both loops. *)
Definition build_channel_options (countries : list country)
    (channels_data : channels_dict) : generated :=
  foldl (add_country (country_map countries)) nothing_generated channels_data.

(** [str.lower] is the standard library's and lowers every cased letter;
    like the parser of datetimes it is a parameter of the model. *)
Record env : Type := { str_lower : string → string }.

(** [lambda x: list(x.keys())[0].lower()] *)
Definition option_sort_key (E : env) (x : string * string) : string :=
  str_lower E x.1.

Definition is_empty {A} (l : list A) : bool :=
  match l with [] => true | _ => false end.

(** The function up to the list it hands to the YAML writer as the
    options of the channels field: [None] when it leaves at "Failed to
    load required data". *)
Definition create_options_yml (E : env) (countries_file : file countries_cache)
    (channels_file : file channels_dict) : result (option generated) :=
  countries ← load_countries countries_file;
  channels_data ← load_channels channels_file;
  match countries, channels_data with
  | Some countries, Some channels_data =>
      if is_empty countries || is_empty channels_data then mret None
      else
        let acc := build_channel_options countries channels_data in
        mret (Some {| channel_options :=
                        Py.sort_by Py.str_lt (option_sort_key E) (channel_options acc);
                      total_channels := total_channels acc;
                      warnings := warnings acc |})
  | _, _ => mret None
  end.

(** *** The join, in the words of the specification

    One option for every pair of a country and a channel listed under the
    country's id, when the channel carries an identifier.  These
    definitions say what is expected and use nothing of the loops above. *)
Definition carries_identifier (ch : channel) : bool :=
  match channel_id ch with
  | Some id => Py.truthy id
  | None => false
  end.

(** The display name of a record is its ["display_name"]; a record
    without one goes by its ["name"], and one that has neither is shown
    as ["Unknown"]. *)
Definition shown_as (shown plain : option string) : string :=
  match shown, plain with
  | Some text, _ => text
  | None, Some text => text
  | None, None => "Unknown"
  end.

(** The label is the country's display name, [" - "] and the channel's
    display name; the value is the channel's identifier, ["|"] and the
    channel's display name. *)
Definition option_entry (c : country) (ch : channel) : string * string :=
  let country_shown := shown_as (country_display_name c) (country_name c) in
  let channel_shown := shown_as (channel_display_name ch) (channel_name ch) in
  (country_shown +:+ " - " +:+ channel_shown,
   default "" (channel_id ch) +:+ "|" +:+ channel_shown).

Definition joined_options (countries : list country) (channels_data : channels_dict)
    : list (string * string) :=
  c ← countries;
  item ← channels_data;
  if decide (item.1 = country_id c) then
    ch ← default [] (entry_data item.2);
    if carries_identifier ch then [option_entry c ch] else []
  else [].

(** In comprehension form: the options one channel of the country [c] adds, and the options and
    warnings one item of the keyed cache adds. *)
Definition channel_adds (c : country) (ch : channel) : list (string * string) :=
  if carries_identifier ch then [option_entry c ch] else [].

Definition item_adds (countries : gmap string country)
    (item : string * channels_entry) : list (string * string) :=
  match countries !! item.1 with
  | Some c => default [] (entry_data item.2) ≫= channel_adds c
  | None => []
  end.

Definition item_warns (countries : gmap string country)
    (item : string * channels_entry) : list string :=
  match countries !! item.1 with
  | Some c => []
  | None => [unknown_country_warning item.1]
  end.

(** *** The order, in the words of the specification

    Labels are compared without regard to case: each with its letters
    lowered by [str.lower], then as text.  The label [a] may stand before
    the label [b] when [b], lowered, is not the smaller one; two option
    entries are in order when their labels are. *)
Definition caseless_le (E : env) (a b : string) : Prop :=
  Py.str_lt (str_lower E b) (str_lower E a) = false.

Definition by_label_ignoring_case (E : env) (x y : string * string) : Prop :=
  caseless_le E x.1 y.1.

(** The labels of a list of options, lowered. *)
Definition lowered_labels (E : env) (options : list (string * string)) : list string :=
  (λ x, str_lower E x.1) <$> options.

(** The options of a list whose label, lowered, is [label], in the order
    of the list. *)
Definition with_lowered_label (E : env) (label : string)
    (options : list (string * string)) : list (string * string) :=
  filter (λ x, str_lower E x.1 = label) options.

(** The same keyed cache up to the order of its items and the order of
    the channels under each key. *)
Definition same_channels (a b : string * channels_entry) : Prop :=
  a.1 = b.1 ∧ default [] (entry_data a.2) ≡ₚ default [] (entry_data b.2).

Definition reordered (channels_data channels_data' : channels_dict) : Prop :=
  ∃ mid, channels_data ≡ₚ mid ∧ Forall2 same_channels mid channels_data'.

End GenerateOptions.

(** ** Worked examples: concrete runs of [generate-channels.py] *)

Module ChannelsScenario.
Import GenerateChannels.

Definition austria : country := {| country_id := "1"; country_name := "Austria" |}.
Definition belgium : country := {| country_id := "2"; country_name := "Belgium" |}.
Definition croatia : country := {| country_id := "3"; country_name := "Croatia" |}.
Definition denmark : country := {| country_id := "4"; country_name := "Denmark" |}.

Definition channels_of (id : string) : channel_list :=
  [[("id", id +:+ "01"); ("name", "News")]; [("id", id +:+ "02"); ("name", "Sports")]].

Definition url (id : string) : string :=
  "https://tv-plan.org/api-v1.php?apitoken=t0ken&resource=channelsOfCountry&countryId=" +:+ id.

(** The clock starts on 2026-11-03 at noon and gains a second with every
    reading. *)
Definition noon : Z := 63929304000000000.

Definition ticking (n : nat) : Z := noon + Z.of_nat n * 1000000.

(** An API that answers the countries and every channel list but the one
    of Belgium, which it refuses with the text [refusal]. *)
Definition api (refusal : string) : env := {|
  api_countries := λ _, Payload [austria; belgium; croatia];
  api_channels := λ _ id,
    if decide (id = "2") then RequestException refusal else Payload (channels_of id);
  clock := ticking;
  fromisoformat := Iso.fromisoformat;
  isoformat := Iso.isoformat
|}.

Definition too_many_requests : string :=
  "429 Client Error: Too Many Requests for url: " +:+ url "2".

Definition server_error : string :=
  "500 Server Error: Internal Server Error for url: " +:+ url "2".

Definition rate_limited : env := api too_many_requests.
Definition failing : env := api server_error.

(** An API that is down. *)
Definition unreachable : env := {|
  api_countries := λ _, RequestException "HTTPSConnectionPool(host='tv-plan.org', port=443): Max retries exceeded";
  api_channels := λ _ _, RequestException "HTTPSConnectionPool(host='tv-plan.org', port=443): Max retries exceeded";
  clock := ticking;
  fromisoformat := Iso.fromisoformat;
  isoformat := Iso.isoformat
|}.

Definition cached (timestamp : option string) : countries_cache :=
  {| cache_data := [austria; belgium]; cache_timestamp := timestamp |}.

Definition disk (countries : file countries_cache)
    (channels : file (gmap string channels_entry)) : world :=
  {| countries_file := countries; channels_file := channels;
     requests := []; clock_reads := 0 |}.

Definition empty_disk : world := disk Missing Missing.

(** Entries of the keyed cache: Belgium fetched on 2 November, Croatia on
    1 October, Austria with an entry that lost its timestamp. *)
Definition entry_of (id : string) (timestamp : option string) : channels_entry :=
  {| entry_data := channels_of id; entry_timestamp := timestamp |}.

Definition keyed_cache : gmap string channels_entry :=
  <["2" := entry_of "2" (Some "2026-11-02T10:00:00.000250Z")]>
    (<["3" := entry_of "3" (Some "2026-10-01T09:30:00Z")]> ∅).

Definition keyed_cache_blank : gmap string channels_entry :=
  <["1" := entry_of "1" None]> keyed_cache.

(** The three countries, none of them in the cache yet; Belgium comes
    second. *)
Definition austria_first : list work_item :=
  fetch_order ∅ [austria; belgium; croatia].

(** An API that answers every request, under a clock that starts at noon
    sharp and gains 250 microseconds with every reading. *)
Definition quick : env := {|
  api_countries := λ _, Payload [austria; belgium; croatia];
  api_channels := λ _ id, Payload (channels_of id);
  clock := λ n, noon + Z.of_nat n * 250;
  fromisoformat := Iso.fromisoformat;
  isoformat := Iso.isoformat
|}.

(** The keyed cache after the loop has fetched Croatia at noon sharp and
    Belgium 250 microseconds later.  [isoformat] prints no fraction for a
    time on the full second. *)
Definition croatia_then_belgium : gmap string channels_entry :=
  <["3" := entry_of "3" (Some "2026-11-03T12:00:00Z")]>
    (<["2" := entry_of "2" (Some "2026-11-03T12:00:00.000250Z")]> ∅).

End ChannelsScenario.

(** ** Worked examples: concrete runs of [generate-options.py] *)

Module OptionsScenario.
Import GenerateOptions.

(** The labels of the examples are ASCII text, of which [str.lower]
    lowers the letters A to Z. *)
Definition on_ascii : env := {| str_lower := Py.lower |}.

Definition country_x : country :=
  {| country_id := "1"; country_display_name := Some "Country X"; country_name := Some "X" |}.
Definition apple : country :=
  {| country_id := "2"; country_display_name := None; country_name := Some "apple" |}.
Definition banana : country :=
  {| country_id := "3"; country_display_name := Some "Banana"; country_name := None |}.

Definition news : channel :=
  {| channel_id := Some "c1"; channel_display_name := Some "News"; channel_name := None |}.
Definition sports : channel :=
  {| channel_id := Some "c2"; channel_display_name := Some "Sports"; channel_name := Some "SP" |}.
Definition kids : channel :=
  {| channel_id := Some "k1"; channel_display_name := None; channel_name := Some "Kids" |}.
(** Two channels without an identifier: none, and an empty one. *)
Definition radio : channel :=
  {| channel_id := None; channel_display_name := Some "Radio"; channel_name := None |}.
Definition test_card : channel :=
  {| channel_id := Some ""; channel_display_name := None; channel_name := None |}.

Definition listing (channels : list channel) : channels_entry :=
  {| entry_data := Some channels |}.

Definition countries_json : countries_cache :=
  {| cache_data := Some [country_x; apple; banana] |}.

(** [channels.json]; no country has the id 9. *)
Definition channels_json : channels_dict :=
  [("3", listing [kids]); ("1", listing [sports; radio; news]);
   ("9", listing [news]); ("2", listing [test_card; kids])].

Definition channels_json_shuffled : channels_dict :=
  [("1", listing [news; sports; radio]); ("2", listing [kids; test_card]);
   ("9", listing [news]); ("3", listing [kids])].

Definition generated_options : list (string * string) :=
  [("apple - Kids", "k1|Kids"); ("Banana - Kids", "k1|Kids");
   ("Country X - News", "c1|News"); ("Country X - Sports", "c2|Sports")].

(** Two channels whose names differ in case only, under Country X, in
    the one order and in the other. *)
Definition news_in_capitals : channel :=
  {| channel_id := Some "c7"; channel_display_name := Some "NEWS"; channel_name := None |}.

Definition tied_channels : channels_dict := [("1", listing [news; news_in_capitals])].
Definition tied_channels_swapped : channels_dict := [("1", listing [news_in_capitals; news])].

End OptionsScenario.

(** ** Vocabulary for the runs of [generate-channels.py] as a whole *)

Module ChannelsRuns.
Import GenerateChannels.

(** The ids of the work items, in order. *)
Definition ids (todo : list work_item) : list string := todo.*1.*1.

(** The file on the disk is the dictionary in memory; or there is no file
    yet and the dictionary is empty. *)
Definition in_sync (w : world) (channels_data : gmap string channels_entry) : Prop :=
  channels_file w = Doc channels_data ∨
  (channels_file w = Missing ∧ channels_data = ∅).

(** An API none of whose failures reads as a rate limit, and an API that
    answers every request for channels. *)
Definition never_rate_limited (E : env) : Prop :=
  ∀ log id text, api_channels E log id = RequestException text →
    is_rate_limit text = false.

Definition always_answers (E : env) : Prop :=
  ∀ log id, ∃ channels, api_channels E log id = Payload channels.

(** The printer and the parser of the library agree on the timestamp the
    script writes at the clock reading [t]. *)
Definition reads_back (E : env) (t : Z) : Prop :=
  fromisoformat E (Py.replace_Z (isoformat E t +:+ "Z")) = Some (naive t).

(** The text mentions a rate limit: the digits 429 stand somewhere in it,
    or the words "rate limit" in any mix of upper and lower case. *)
(** The entry [e] was fetched for the country [id] between the worlds [w]
    and [w']: after [w] a request for the channels of [id] was sent and
    answered, the entry holds the answer, and its timestamp is a reading
    of the clock taken between the two worlds, printed with a ["Z"]. *)
Definition fetched_between (E : env) (w w' : world) (id : string)
    (e : channels_entry) : Prop :=
  ∃ log channels n,
    requests w `prefix_of` log ∧
    (log ++ [ChannelsOfCountry id]) `prefix_of` requests w' ∧
    api_channels E log id = Payload channels ∧
    (clock_reads w ≤ n < clock_reads w')%nat ∧
    e = {| entry_data := channels;
           entry_timestamp := Some (isoformat E (clock E n) +:+ "Z") |}.

Definition mentions_rate_limit (text : string) : Prop :=
  (∃ a b, text = a +:+ "429" +:+ b) ∨
  (∃ a x b, text = a +:+ x +:+ b ∧ Py.lower x = "rate limit").

End ChannelsRuns.

(** ** More Python built-ins on text: [split], [strip], [join] *)

Module PyText.

(** [s.isascii()].  On ASCII text a code unit is a character, and the
    functions of this module compute what Python's methods do; the
    properties of the parsed ids are stated for such text. *)
Definition isascii (s : string) : bool :=
  forallb (λ c, (N_of_ascii c <? 128)%N) (list_ascii_of_string s).

(** [str.isspace] on the code units below 128: tab to carriage return,
    the four separators 28 to 31, and the space. *)
Definition is_space (c : ascii) : bool :=
  let n := N_of_ascii c in
  (((9 <=? n) && (n <=? 13)) || ((28 <=? n) && (n <=? 32)))%N.

Fixpoint lstrip (s : string) : string :=
  match s with
  | EmptyString => EmptyString
  | String c s' => if is_space c then lstrip s' else s
  end.

Fixpoint rstrip (s : string) : string :=
  match s with
  | EmptyString => EmptyString
  | String c s' =>
      match rstrip s' with
      | EmptyString => if is_space c then EmptyString else String c EmptyString
      | rest => String c rest
      end
  end.

(** [s.strip()] *)
Definition strip (s : string) : string := rstrip (lstrip s).

(** [s.split(sep)] for a separator of one character: a separator ends a
    piece, and the empty string gives one empty piece. *)
Fixpoint split (sep : ascii) (s : string) : list string :=
  match s with
  | EmptyString => [EmptyString]
  | String c s' =>
      if Ascii.eqb c sep then EmptyString :: split sep s'
      else match split sep s' with
           | [] => [String c EmptyString]
           | piece :: pieces => String c piece :: pieces
           end
  end.

(** [sep.join(pieces)] *)
Definition join (sep : string) (pieces : list string) : string :=
  String.concat sep pieces.

(** The characters of a string. *)
Definition chars (s : string) : list ascii := list_ascii_of_string s.

(** The string is empty or begins with a character that is no space. *)
Definition starts_solid (s : string) : Prop :=
  match s with
  | EmptyString => True
  | String c _ => is_space c = false
  end.

End PyText.

(** ** [scripts/generate-stub-data.py]

    The script's effects are the files of the stub directory and the
    requests it sends.  Of what it prints the model keeps the three
    numbers of the summary. *)

Module GenerateStubData.
Import GenerateChannels (response, Payload, RequestException).

(** The programs of one channel as the API returns them; the script
    stores them without looking inside. *)
Definition programs : Type := list (list (string * string)).

(** The exceptions that end this script: the [ValueError] it raises
    itself, and the [OSError] of a [mkdir] or an [open] that fails; the
    handler for [requests.RequestException] lets the latter pass. *)
Inductive failure : Type :=
  | ValueError (message : string)
  | OSError.

Inductive outcome (A : Type) : Type :=
  | Finished (a : A)
  | Failed (e : failure).
Arguments Finished {A} a.
Arguments Failed {A} e.

(** The environment variables, the API as a function of the channel ids
    requested before, whether the stub directory is there or can be made
    ([STUB_DIR.mkdir(parents=True, exist_ok=True)]), and whether
    [open(path, 'w')] succeeds for a file name of that directory. *)
Record env : Type := {
  API_KEY : option string;
  TEST_CHANNEL_IDS : string;
  api_programs : list string → string → response programs;
  can_mkdir : bool;
  can_open : string → bool
}.

Record world : Type := {
  stub_files : gmap string programs;
  requests : list string
}.

(** [f"{channel_id}.json"] *)
Definition file_name (channel_id : string) : string := channel_id +:+ ".json".

Definition fetch_channel_programs (E : env) (channel_id : string) (w : world)
    : outcome bool * world :=
  let requested :=
    {| stub_files := stub_files w; requests := requests w ++ [channel_id] |} in
  match api_programs E (requests w) channel_id with
  | Payload programs =>
      if can_open E (file_name channel_id) then
        (Finished true,
         {| stub_files := <[file_name channel_id := programs]> (stub_files w);
            requests := requests w ++ [channel_id] |})
      else (Failed OSError, requested)
  | RequestException _ => (Finished false, requested)
  end.

(** [[ch_id.strip() for ch_id in TEST_CHANNEL_IDS.split(",") if ch_id.strip()]] *)
Definition channel_ids_of (test_channel_ids : string) : list string :=
  ch_id ← PyText.split "," test_channel_ids;
  if Py.truthy (PyText.strip ch_id) then [PyText.strip ch_id] else [].

(** The [for] loop of [main], with its counter. *)
Fixpoint fetch_all (E : env) (channel_ids : list string) (success_count : nat)
    (w : world) : outcome nat * world :=
  match channel_ids with
  | [] => (Finished success_count, w)
  | channel_id :: rest =>
      match fetch_channel_programs E channel_id w with
      | (Finished true, w') => fetch_all E rest (S success_count) w'
      | (Finished false, w') => fetch_all E rest success_count w'
      | (Failed e, w') => (Failed e, w')
      end
  end.

(** The summary: total channels, successfully fetched, failed. *)
Record summary : Type := {
  total : nat;
  fetched : nat;
  failed : nat
}.

(** [main] returns [None] at "No channel IDs found". *)
Definition main (E : env) (w : world) : outcome (option summary) * world :=
  let channel_ids := channel_ids_of (TEST_CHANNEL_IDS E) in
  match channel_ids with
  | [] => (Finished None, w)
  | _ =>
      match fetch_all E channel_ids 0 w with
      | (Finished success_count, w') =>
          (Finished (Some {| total := length channel_ids;
                             fetched := success_count;
                             failed := length channel_ids - success_count |}), w')
      | (Failed e, w') => (Failed e, w')
      end
  end.

(** The script: the directory and the two checks at the top of the
    module, then [main]. *)
Definition script (E : env) (w : world) : outcome (option summary) * world :=
  if negb (can_mkdir E) then (Failed OSError, w)
  else if negb (Py.truthy (default "" (API_KEY E))) then
    (Failed (ValueError "API_KEY not found in .env file"), w)
  else if negb (Py.truthy (TEST_CHANNEL_IDS E)) then
    (Failed (ValueError "TEST_CHANNEL_IDS not found in .env file"), w)
  else main E w.

(** *** Vocabulary *)

(** An id as the script wants it: not empty, no comma inside, no
    whitespace at either end. *)
Definition clean (channel_id : string) : Prop :=
  channel_id ≠ "" ∧ (","%char ∉ PyText.chars channel_id) ∧
  PyText.strip channel_id = channel_id.

(** A text of commas and whitespace only. *)
Definition blank (s : string) : Prop :=
  Forall (λ c, c = ","%char ∨ PyText.is_space c = true) (PyText.chars s).

End GenerateStubData.

(** ** Worked examples: more runs *)

Module RunsScenario.
Import GenerateChannels ChannelsScenario.

(** An API that answers every request. *)
Definition generous : env := {|
  api_countries := λ _, Payload [austria; belgium; croatia];
  api_channels := λ _ id, Payload (channels_of id);
  clock := ticking;
  fromisoformat := Iso.fromisoformat;
  isoformat := Iso.isoformat
|}.

(** An API whose server fails on every request for channels. *)
Definition broken : env := {|
  api_countries := λ _, Payload [austria; belgium; croatia];
  api_channels := λ _ id,
    RequestException ("500 Server Error: Internal Server Error for url: " +:+ url id);
  clock := ticking;
  fromisoformat := Iso.fromisoformat;
  isoformat := Iso.isoformat
|}.

(** The run of the loop over [austria_first] against the rate-limited
    API: Austria is stored, Belgium is refused. *)
Definition austria_only : gmap string channels_entry :=
  {["1" := fetched_entry rate_limited empty_disk (channels_of "1")]}.

Definition halted : world :=
  log_request (ChannelsOfCountry "2")
    (set_channels_file (Doc austria_only)
       (tick (log_request (ChannelsOfCountry "1") empty_disk))).

Definition fresh_cache : countries_cache :=
  cached (Some "2026-11-01T08:30:00.000250Z").

Definition week_old_cache : countries_cache :=
  cached (Some "2026-10-27T11:59:59Z").

End RunsScenario.

Module OptionsScenarioMore.
Import GenerateOptions OptionsScenario.

(** An older record of the country with id 1. *)
Definition country_x_before : country :=
  {| country_id := "1"; country_display_name := Some "Land X"; country_name := None |}.

End OptionsScenarioMore.

Module StubScenario.
Import GenerateChannels (response, Payload, RequestException).
Import GenerateStubData.

Definition programs_of (id : string) : programs :=
  [[("title", "News at " +:+ id); ("start", "2026-11-03T20:00:00")]].

(** Three ids; the API refuses the second; [locked] tells whether the
    file of the second can be opened. *)
Definition stub_env (locked : bool) : env := {|
  API_KEY := Some "t0ken";
  TEST_CHANNEL_IDS := " 101, 202 ,,303 ";
  api_programs := λ log id,
    if decide (id = "202") then
      if locked then Payload (programs_of id)
      else RequestException "429 Client Error: Too Many Requests"
    else Payload (programs_of id);
  can_mkdir := true;
  can_open := λ name, negb (locked && bool_decide (name = "202.json"))
|}.

(** No ids between the commas. *)
Definition blank_env : env := {|
  API_KEY := Some "t0ken";
  TEST_CHANNEL_IDS := " , , ,";
  api_programs := λ _ id, Payload (programs_of id);
  can_mkdir := true;
  can_open := λ _, true
|}.

Definition empty_stub_dir : world := {| stub_files := ∅; requests := [] |}.

Definition after_101 : world :=
  {| stub_files := {["101.json" := programs_of "101"]}; requests := ["101"] |}.

End StubScenario.

(** * Properties *)

(** ** The order on strings and the sort *)

Module PyFacts.
Import Py.

Lemma compare_as_OT (a b : string) : String.compare a b = String_as_OT.compare a b.
Proof. reflexivity. Qed.

Lemma str_lt_spec (a b : string) : str_lt a b = true ↔ String_as_OT.lt a b.
Proof.
  unfold str_lt, String.ltb, String_as_OT.lt. rewrite compare_as_OT.
  destruct (String_as_OT.compare a b); naive_solver.
Qed.

Lemma str_lt_irrefl (a : string) : str_lt a a = false.
Proof.
  apply not_true_is_false. rewrite str_lt_spec.
  apply (irreflexivity String_as_OT.lt).
Qed.

Lemma str_lt_trans (a b c : string) :
  str_lt a b = true → str_lt b c = true → str_lt a c = true.
Proof. rewrite !str_lt_spec. apply (transitivity (R := String_as_OT.lt)). Qed.

Lemma str_lt_total (a b : string) :
  str_lt a b = false → str_lt b a = false → a = b.
Proof.
  unfold str_lt, String.ltb. rewrite (String.compare_antisym b a).
  destruct (String.compare a b) eqn:Hc; simpl; try done.
  intros _ _. by apply String.compare_eq_iff.
Qed.

Lemma str_lt_empty (s : string) : s ≠ "" → str_lt "" s = true.
Proof. by destruct s. Qed.

Lemma pair_lt_irrefl (a : bool * string) : pair_lt a a = false.
Proof. destruct a as [[] s]; apply str_lt_irrefl. Qed.

Lemma pair_lt_trans (a b c : bool * string) :
  pair_lt a b = true → pair_lt b c = true → pair_lt a c = true.
Proof.
  destruct a as [[] s], b as [[] t], c as [[] u]; unfold pair_lt; simpl;
    try done; apply str_lt_trans.
Qed.

Lemma pair_lt_total (a b : bool * string) :
  pair_lt a b = false → pair_lt b a = false → a = b.
Proof.
  destruct a as [[] s], b as [[] t]; unfold pair_lt; simpl; try done;
    intros H1 H2; f_equal; by apply str_lt_total.
Qed.

#[export] Instance str_lt_strict_total : StrictTotal str_lt.
Proof. split; [apply str_lt_irrefl | apply str_lt_trans | apply str_lt_total]. Qed.

#[export] Instance pair_lt_strict_total : StrictTotal pair_lt.
Proof. split; [apply pair_lt_irrefl | apply pair_lt_trans | apply pair_lt_total]. Qed.

Section sort_facts.
Context {A K : Type} (lt : K → K → bool) `{!StrictTotal lt} (key : A → K).

Lemma lt_asym a b : lt a b = true → lt b a = false.
Proof.
  intros Hab. destruct (lt b a) eqn:Hba; [|done].
  by rewrite <-(lt_irrefl a), <-(lt_trans a b a Hab Hba).
Qed.

Lemma key_le_trans x y z : key_le lt key x y → key_le lt key y z → key_le lt key x z.
Proof.
  unfold key_le. intros Hxy Hyz.
  destruct (lt (key z) (key x)) eqn:Hzx; [|done].
  destruct (lt (key x) (key y)) eqn:Hlt.
  - by rewrite (lt_trans _ _ _ Hzx Hlt) in Hyz.
  - rewrite (lt_total _ _ Hlt Hxy) in Hzx. congruence.
Qed.

Lemma insert_by_perm x l : insert_by lt key x l ≡ₚ x :: l.
Proof.
  induction l as [|y l IH]; simpl; [done|].
  destruct (lt (key y) (key x)); [|done].
  by rewrite IH, Permutation_swap.
Qed.

Lemma sort_by_perm l : sort_by lt key l ≡ₚ l.
Proof.
  induction l as [|x l IH]; simpl; [done|].
  by rewrite insert_by_perm, IH.
Qed.

Lemma insert_by_sorted x l :
  StronglySorted (key_le lt key) l → StronglySorted (key_le lt key) (insert_by lt key x l).
Proof.
  induction l as [|y l IH]; simpl; intros Hs.
  - by repeat constructor.
  - apply StronglySorted_cons in Hs as [Hy Hl].
    destruct (lt (key y) (key x)) eqn:Hyx.
    + apply StronglySorted_cons. split; [|by apply IH].
      rewrite insert_by_perm. constructor; [|done].
      by apply lt_asym.
    + apply StronglySorted_cons. split; [|by apply StronglySorted_cons].
      constructor; [done|].
      eapply Forall_impl; [exact Hy|]. intros z Hz.
      by apply key_le_trans with y.
Qed.

Lemma sort_by_sorted l : StronglySorted (key_le lt key) (sort_by lt key l).
Proof.
  induction l as [|x l IH]; simpl; [constructor|].
  by apply insert_by_sorted.
Qed.

(** Elements whose keys are equal keep the order they came in: the
    sort is stable. *)
Lemma insert_by_stable `{!EqDecision K} k x l :
  filter (λ z, key z = k) (insert_by lt key x l)
  = filter (λ z, key z = k) (x :: l).
Proof.
  induction l as [|y l IH]; simpl; [done|].
  destruct (lt (key y) (key x)) eqn:Hyx; [|done].
  rewrite !filter_cons, IH, !filter_cons.
  destruct (decide (key y = k)) as [Hy|]; [|done].
  destruct (decide (key x = k)) as [Hx|]; [|done].
  rewrite Hy, Hx, lt_irrefl in Hyx. done.
Qed.

Lemma sort_by_stable `{!EqDecision K} k l :
  filter (λ z, key z = k) (sort_by lt key l) = filter (λ z, key z = k) l.
Proof.
  induction l as [|x l IH]; simpl; [done|].
  by rewrite insert_by_stable, !filter_cons, IH.
Qed.

(** In a sorted list an element with a smaller key stands at a smaller
    index. *)
Lemma sorted_lt_index l i j x y :
  StronglySorted (key_le lt key) l →
  l !! i = Some x → l !! j = Some y →
  lt (key x) (key y) = true → (i < j)%nat.
Proof.
  intros Hs Hi Hj Hlt.
  destruct (decide (i < j)%nat) as [|Hge]; [done|]. exfalso.
  destruct (decide (i = j)) as [->|Hne].
  - rewrite Hi in Hj. injection Hj as ->. by rewrite lt_irrefl in Hlt.
  - assert (j < i)%nat as Hji by lia.
    rewrite <-(take_drop (S j) l) in Hs.
    apply StronglySorted_app in Hs as (Hall & _ & _).
    assert (key_le lt key y x) as Hle.
    { apply Hall.
      - apply list_elem_of_lookup. exists j. rewrite lookup_take_lt; [done|lia].
      - apply list_elem_of_lookup. exists (i - S j)%nat.
        rewrite lookup_drop. by replace (S j + (i - S j))%nat with i by lia. }
    unfold key_le in Hle. congruence.
Qed.

Lemma sorted_index_le l i j x y :
  StronglySorted (key_le lt key) l →
  l !! i = Some x → l !! j = Some y → (i < j)%nat → key_le lt key x y.
Proof.
  intros Hs Hi Hj Hij.
  rewrite <-(take_drop (S i) l) in Hs.
  apply StronglySorted_app in Hs as (Hall & _ & _). apply Hall.
  - apply list_elem_of_lookup. exists i. rewrite lookup_take_lt; [done|lia].
  - apply list_elem_of_lookup. exists (j - S i)%nat.
    rewrite lookup_drop. by replace (S i + (j - S i))%nat with j by lia.
Qed.

(** A sorted list, a permutation of the input, in which elements of equal
    keys keep their order: there is one such list, so any stable sort, and
    Python's, returns what [sort_by] returns. *)
Lemma stable_sorted_unique `{!EqDecision K} l1 l2 :
  StronglySorted (key_le lt key) l1 → StronglySorted (key_le lt key) l2 →
  l1 ≡ₚ l2 →
  (∀ k, filter (λ z, key z = k) l1 = filter (λ z, key z = k) l2) →
  l1 = l2.
Proof.
  revert l2. induction l1 as [|x l1 IH]; intros l2 Hs1 Hs2 Hp Hf.
  - by apply Permutation_nil_l in Hp.
  - destruct l2 as [|y l2]; [by apply Permutation_nil_r in Hp|].
    apply StronglySorted_cons in Hs1 as [Hx Hs1].
    apply StronglySorted_cons in Hs2 as [Hy Hs2].
    rewrite Forall_forall in Hx, Hy.
    assert (key x = key y) as Hk.
    { apply (lt_total (lt:=lt)).
      - assert (x ∈ y :: l2) as [->|Hin]%elem_of_cons by (rewrite <-Hp; left).
        + apply lt_irrefl.
        + by apply Hy.
      - assert (y ∈ x :: l1) as [->|Hin]%elem_of_cons by (rewrite Hp; left).
        + apply lt_irrefl.
        + by apply Hx. }
    assert (x = y) as ->.
    { specialize (Hf (key x)). rewrite !filter_cons in Hf.
      rewrite decide_True in Hf by done. rewrite decide_True in Hf by done.
      by injection Hf. }
    f_equal. apply IH; [done|done|by apply (inj (cons y))|].
    intros k. specialize (Hf k). rewrite !filter_cons in Hf.
    destruct (decide (key y = k)); [by injection Hf|done].
Qed.

Lemma sort_by_unique `{!EqDecision K} l l' :
  StronglySorted (key_le lt key) l' → l' ≡ₚ l →
  (∀ k, filter (λ z, key z = k) l' = filter (λ z, key z = k) l) →
  l' = sort_by lt key l.
Proof.
  intros Hs Hp Hf. apply stable_sorted_unique; [done|apply sort_by_sorted| |].
  - by rewrite sort_by_perm.
  - intros k. by rewrite sort_by_stable.
Qed.
End sort_facts.

End PyFacts.

(** ** [generate-channels.py] *)

Module ChannelsProofs.
Import Py PyFacts GenerateChannels.

(** *** The order of the fetches *)

Lemma categorize_recorded channels_data countries x :
  x ∈ categorize channels_data countries → x.2 = recorded channels_data x.1.1.
Proof.
  unfold categorize, recorded. rewrite list_elem_of_In, in_map_iff.
  intros (c & <- & _).
  destruct (channels_data !! country_id c) eqn:Hc; simpl; by rewrite Hc.
Qed.

Lemma fetch_order_recorded channels_data countries x :
  x ∈ fetch_order channels_data countries → x.2 = recorded channels_data x.1.1.
Proof.
  unfold fetch_order. rewrite sort_by_perm. apply categorize_recorded.
Qed.

Lemma fetch_order_sorted channels_data countries :
  StronglySorted (key_le pair_lt sort_key) (fetch_order channels_data countries).
Proof. apply sort_by_sorted, _. Qed.

Lemma sort_key_new (x : work_item) : x.2 = None → sort_key x = (false, "").
Proof. unfold sort_key. by intros ->. Qed.

Lemma sort_key_known (x : work_item) t : x.2 = Some t → sort_key x = (true, t).
Proof. unfold sort_key. intros ->. by destruct t. Qed.

Lemma sorted_three (a b c : work_item) l :
  pair_lt (sort_key a) (sort_key b) = true →
  pair_lt (sort_key b) (sort_key c) = true →
  StronglySorted (key_le pair_lt sort_key) l →
  l ≡ₚ [a; b; c] → l = [a; b; c].
Proof.
  intros Hab Hbc Hs Hp.
  assert (pair_lt (sort_key a) (sort_key c) = true) as Hac
    by (by eapply lt_trans).
  apply (StronglySorted_unique_strong (key_le pair_lt sort_key)); [|done| |done].
  - intros x y Hx Hy Hxy Hyx. rewrite Hp in Hx.
    assert (sort_key x = sort_key y) as Hk by (symmetry; by apply (lt_total (lt:=pair_lt))).
    pose proof (lt_irrefl (lt:=pair_lt) (sort_key a)).
    pose proof (lt_irrefl (lt:=pair_lt) (sort_key b)).
    pose proof (lt_irrefl (lt:=pair_lt) (sort_key c)).
    pose proof (lt_asym pair_lt _ _ Hab). pose proof (lt_asym pair_lt _ _ Hbc).
    pose proof (lt_asym pair_lt _ _ Hac).
    set_unfold. destruct Hx as [->|[->|[->|[]]]], Hy as [->|[->|[->|[]]]];
      try done; congruence.
  - unfold key_le. repeat (apply StronglySorted_cons; split);
      repeat constructor; by apply (lt_asym pair_lt).
Qed.

Lemma lookup_fetch_order channels_data countries i x :
  fetch_order channels_data countries !! i = Some x →
  x.2 = recorded channels_data x.1.1.
Proof.
  intros Hi. apply (fetch_order_recorded _ countries).
  apply list_elem_of_lookup. by exists i.
Qed.

(** What the sort does.  The fetch order holds exactly the categorized
    countries, each with the timestamp recorded for it; every country
    without an entry in the keyed cache stands before every country with
    one; among the countries with an entry the timestamps, compared as
    text, never decrease along the order, and one that is smaller as text
    stands strictly earlier; and for three countries A without entry, B
    with timestamp T1 and C with a timestamp T2 that is smaller as text,
    given in any order, the fetch order is A, C, B. *)
Lemma fetch_order_new_first_then_by_text
    (channels_data : gmap string channels_entry) (countries : list country) :
  let order := fetch_order channels_data countries in
  order ≡ₚ categorize channels_data countries ∧
  (∀ x, x ∈ order → x.2 = recorded channels_data x.1.1) ∧
  (∀ i j x y, order !! i = Some x → order !! j = Some y →
     channels_data !! x.1.1 = None → is_Some (channels_data !! y.1.1) →
     (i < j)%nat) ∧
  (∀ i j x y tx ty, order !! i = Some x → order !! j = Some y →
     x.2 = Some tx → y.2 = Some ty →
     ((i < j)%nat → str_lt ty tx = false) ∧
     (str_lt tx ty = true → (i < j)%nat)) ∧
  (∀ a b c eb ec t1 t2,
     countries ≡ₚ [a; b; c] →
     channels_data !! country_id a = None →
     channels_data !! country_id b = Some eb → entry_timestamp eb = Some t1 →
     channels_data !! country_id c = Some ec → entry_timestamp ec = Some t2 →
     str_lt t2 t1 = true →
     order = [(country_id a, country_name a, None);
              (country_id c, country_name c, Some t2);
              (country_id b, country_name b, Some t1)]).
Proof.
  intros order. pose proof (fetch_order_sorted channels_data countries) as Hs.
  fold order in Hs. split_and!.
  - apply sort_by_perm.
  - apply fetch_order_recorded.
  - intros i j x y Hi Hj Hx [e Hy].
    apply (sorted_lt_index pair_lt sort_key order i j x y Hs Hi Hj).
    apply lookup_fetch_order in Hi, Hj. unfold recorded in Hi, Hj.
    rewrite Hx in Hi. rewrite Hy in Hj. simpl in Hi, Hj.
    by rewrite (sort_key_new _ Hi), (sort_key_known _ _ Hj).
  - intros i j x y tx ty Hi Hj Hx Hy. split.
    + intros Hij.
      pose proof (sorted_index_le pair_lt sort_key order i j x y Hs Hi Hj Hij) as Hle.
      unfold key_le in Hle.
      by rewrite (sort_key_known _ _ Hx), (sort_key_known _ _ Hy) in Hle.
    + intros Hlt.
      apply (sorted_lt_index pair_lt sort_key order i j x y Hs Hi Hj).
      by rewrite (sort_key_known _ _ Hx), (sort_key_known _ _ Hy).
  - intros a b c eb ec t1 t2 Hp Ha Hb Hb' Hc Hc' Hlt.
    apply sorted_three; [done|by destruct t2, t1|done|].
    unfold order, fetch_order. rewrite sort_by_perm.
    unfold categorize. rewrite (Permutation_map _ Hp). simpl.
    rewrite Ha, Hb, Hc, Hb', Hc'. simpl. apply Permutation_skip, Permutation_swap.
Qed.

(** C10.  A country whose cache entry has no timestamp, or an empty one,
    gets the sort key [(True, "")]: it is fetched after every country
    without an entry and before every country whose entry has a non-empty
    timestamp. *)
Theorem fetch_order_blank_timestamp
    (channels_data : gmap string channels_entry) (countries : list country)
    (i j : nat) (x y : work_item) (e : channels_entry) :
  let order := fetch_order channels_data countries in
  order !! i = Some x → order !! j = Some y →
  channels_data !! x.1.1 = Some e →
  entry_timestamp e = None ∨ entry_timestamp e = Some "" →
  sort_key x = (true, "") ∧
  (channels_data !! y.1.1 = None → (j < i)%nat) ∧
  (∀ e' t, channels_data !! y.1.1 = Some e' → entry_timestamp e' = Some t →
     t ≠ "" → (i < j)%nat).
Proof.
  intros order Hi Hj Hx Hblank.
  pose proof (fetch_order_sorted channels_data countries) as Hs. fold order in Hs.
  assert (x.2 = Some "") as Hx2.
  { rewrite (lookup_fetch_order _ _ _ _ Hi). unfold recorded. rewrite Hx.
    simpl. by destruct Hblank as [-> | ->]. }
  pose proof (sort_key_known _ _ Hx2) as Hkx. split_and!; [done| |].
  - intros Hy. apply (sorted_lt_index pair_lt sort_key order j i y x Hs Hj Hi).
    apply lookup_fetch_order in Hj. unfold recorded in Hj. rewrite Hy in Hj.
    by rewrite Hkx, (sort_key_new _ Hj).
  - intros e' t Hy Ht Hne.
    apply (sorted_lt_index pair_lt sort_key order i j x y Hs Hi Hj).
    apply lookup_fetch_order in Hj. unfold recorded in Hj. rewrite Hy in Hj.
    simpl in Hj. rewrite Ht in Hj. simpl in Hj.
    rewrite Hkx, (sort_key_known _ _ Hj). by apply str_lt_empty.
Qed.

(** *** The countries cache *)

(** How the monad runs, as rewriting rules. *)
Lemma run_bind {A B} (m : M A) (f : A → M B) (w : world) :
  (m ≫= f) w = match m w with
               | (Returns a, w') => f a w'
               | (Raises e, w') => (Raises e, w')
               end.
Proof. reflexivity. Qed.

Lemma run_ret {A} (a : A) (w : world) : mret (M := M) a w = (Returns a, w).
Proof. reflexivity. Qed.

Ltac run :=
  unfold mbind, M_bind, mret, M_ret, raise, lift, modify, utcnow,
    http_get_countries, http_get_channels, get_utc_timestamp;
  simpl.

(** A timestamp the parser rejects makes the data stale, and nothing is
    raised. *)
Lemma is_data_stale_unparseable (E : env) (timestamp_str : string) (days : Z) (w : world) :
  fromisoformat E (replace_Z timestamp_str) = None →
  is_data_stale E timestamp_str days w = (Returns true, w).
Proof. unfold is_data_stale. by intros ->. Qed.

(** A timestamp that parses to a naive datetime is compared with the
    clock. *)
Lemma is_data_stale_naive (E : env) (timestamp_str : string) (days : Z) (w : world) t :
  fromisoformat E (replace_Z timestamp_str) = Some (naive t) →
  is_data_stale E timestamp_str days w
  = (Returns (bool_decide (clock E (clock_reads w) - t > timedelta_days days)), tick w).
Proof.
  unfold is_data_stale. intros ->. run. do 2 f_equal.
  case_bool_decide; lia.
Qed.

(** A timestamp that parses to an offset-aware datetime makes the
    subtraction from [utcnow()] raise, and the handler lets it pass. *)
Lemma is_data_stale_aware (E : env) (timestamp_str : string) (days : Z) (w : world) t offset :
  fromisoformat E (replace_Z timestamp_str) = Some {| wall := t; utcoffset := Some offset |} →
  is_data_stale E timestamp_str days w = (Raises TypeError, tick w).
Proof. unfold is_data_stale. by intros ->. Qed.

(** [fetch_countries] issues one request, whatever comes back. *)
Lemma fetch_countries_requests (E : env) (w : world) :
  ∃ w', fetch_countries E w
        = (Returns (match api_countries E (requests w) with
                    | Payload countries => Some countries
                    | RequestException _ => None
                    end), w')
        ∧ requests w' = requests w ++ [Countries].
Proof.
  unfold fetch_countries. rewrite run_bind. simpl.
  destruct (api_countries E (requests w)); eexists; split; reflexivity.
Qed.


(** C1.  When the cache file holds a document whose timestamp parses and
    is at most [COUNTRIES_MAX_AGE_DAYS] old, [load_countries] returns the
    cached data and issues no request; when the file is missing, or its
    timestamp is absent or does not parse, or it is older,
    [load_countries] issues exactly one request, for the countries, and
    returns what the fetch returns; when the file is there and holds no
    document, [load_countries] raises the decoder's error and issues no
    request.  (The age is the clock reading minus the timestamp, both
    naive; for an offset-aware timestamp see C5.) *)
Theorem load_countries_fetch_policy (E : env) (w : world) :
  (∀ data, cache_fresh E w data →
     ∃ w', load_countries E w = (Returns (Some (cache_data data)), w') ∧
           requests w' = requests w ∧
           countries_file w' = countries_file w ∧
           channels_file w' = channels_file w) ∧
  (cache_to_refresh E w →
     ∃ w', load_countries E w
           = (Returns (match api_countries E (requests w) with
                       | Payload countries => Some countries
                       | RequestException _ => None
                       end), w') ∧
           requests w' = requests w ++ [Countries]) ∧
  (countries_file w = Torn → load_countries E w = (Raises JSONDecodeError, w)).
Proof.
  split_and!.
  - intros data (Hfile & t & Hparse & Hage).
    unfold load_countries. rewrite Hfile, run_bind.
    rewrite (is_data_stale_naive _ _ _ _ _ Hparse).
    rewrite bool_decide_eq_false_2 by lia. simpl.
    by eexists.
  - intros [Hfile | (data & Hfile & [Hparse | (t & Hparse & Hage)])];
      unfold load_countries; rewrite Hfile.
    + apply fetch_countries_requests.
    + rewrite run_bind, (is_data_stale_unparseable _ _ _ _ Hparse). simpl.
      apply fetch_countries_requests.
    + rewrite run_bind, (is_data_stale_naive _ _ _ _ _ Hparse).
      rewrite bool_decide_eq_true_2 by lia. simpl.
      destruct (fetch_countries_requests E (tick w)) as (w' & -> & Hreq).
      by eexists.
  - intros Hfile. unfold load_countries. by rewrite Hfile.
Qed.

(** C9.  When the request for the countries fails, [fetch_countries]
    returns [None] and both cache files are what they were: the only
    trace of the call is the request itself. *)
Theorem fetch_countries_failure_keeps_cache (E : env) (w : world) (text : string) :
  api_countries E (requests w) = RequestException text →
  ∃ w', fetch_countries E w = (Returns None, w') ∧
        countries_file w' = countries_file w ∧
        channels_file w' = channels_file w ∧
        requests w' = requests w ++ [Countries] ∧
        clock_reads w' = clock_reads w.
Proof.
  intros Hfail. unfold fetch_countries. rewrite run_bind. simpl.
  rewrite Hfail. by eexists.
Qed.

(** *** The fetch loop *)


Lemma fetch_channels_success (E : env) id name channels_data (w : world) channels :
  api_channels E (requests w) id = Payload channels →
  let stored := <[id := fetched_entry E w channels]> channels_data in
  fetch_channels_for_country E id name channels_data w
  = (Returns (Some true, stored),
     set_channels_file (Doc stored) (tick (log_request (ChannelsOfCountry id) w))).
Proof. intros Hok. unfold fetch_channels_for_country. run. by rewrite Hok. Qed.

Lemma fetch_channels_failure (E : env) id name channels_data (w : world) text :
  api_channels E (requests w) id = RequestException text →
  fetch_channels_for_country E id name channels_data w
  = (Returns (if is_rate_limit text then Some false else None, channels_data),
     log_request (ChannelsOfCountry id) w).
Proof.
  intros Hfail. unfold fetch_channels_for_country. run. rewrite Hfail.
  by destruct (is_rate_limit text).
Qed.

(** The loop always comes to an end, by exhaustion or by [break]. *)
Lemma fetch_loop_returns (E : env) todo channels_data (w : world) :
  ∃ exit channels_data' w',
    fetch_loop E todo channels_data w = (Returns (exit, channels_data'), w').
Proof.
  revert channels_data w. induction todo as [|[[id name] ts] todo IH]; intros cd w.
  - by eexists _, _, _.
  - simpl. rewrite run_bind.
    destruct (api_channels E (requests w) id) as [channels|text] eqn:Hapi.
    + rewrite (fetch_channels_success _ _ _ _ _ _ Hapi). apply IH.
    + rewrite (fetch_channels_failure _ _ _ _ _ _ Hapi).
      destruct (is_rate_limit text); [by eexists _, _, _|apply IH].
Qed.

(** A prefix of the work that the loop gets through is a prefix of the
    run. *)
Lemma fetch_loop_app (E : env) before rest channels_data (w : world) channels_data1 w1 :
  fetch_loop E before channels_data w = (Returns (Exhausted, channels_data1), w1) →
  fetch_loop E (before ++ rest) channels_data w = fetch_loop E rest channels_data1 w1.
Proof.
  revert channels_data w. induction before as [|[[id name] ts] before IH]; intros cd w.
  - simpl. rewrite run_ret. by intros [= -> ->].
  - simpl. rewrite !run_bind.
    destruct (fetch_channels_for_country E id name cd w) as [[[result cd']|e] w'];
      [|done].
    destruct result as [[]|]; [apply IH|done|apply IH].
Qed.

(** The loop touches the entries of the countries it fetches, no other. *)
Lemma fetch_loop_frame (E : env) todo channels_data (w : world) exit channels_data' w' k :
  fetch_loop E todo channels_data w = (Returns (exit, channels_data'), w') →
  k ∉ todo.*1.*1 → channels_data' !! k = channels_data !! k.
Proof.
  revert channels_data w. induction todo as [|[[id name] ts] todo IH]; intros cd w.
  - simpl. rewrite run_ret. by intros [= _ -> _].
  - simpl. rewrite run_bind. intros Hrun Hk.
    apply not_elem_of_cons in Hk as [Hne Hk].
    destruct (api_channels E (requests w) id) as [channels|text] eqn:Hapi.
    + rewrite (fetch_channels_success _ _ _ _ _ _ Hapi) in Hrun.
      rewrite (IH _ _ Hrun Hk). by apply lookup_insert_ne.
    + rewrite (fetch_channels_failure _ _ _ _ _ _ Hapi) in Hrun.
      destruct (is_rate_limit text).
      * rewrite run_ret in Hrun. by injection Hrun as _ -> _.
      * by apply (IH _ _ Hrun).
Qed.

(** C2.  Let the loop have got through the countries [before], and let
    the request for the next country fail.  If the failure reads as a
    rate limit, the loop ends there: the dictionary and the cache file are
    as the countries before left them, the failed request is the last one
    made, and no country after it is requested.  Otherwise the loop goes
    on with the countries after it, and to its end, from a state in which
    only the request log has changed: the entry of the failed country is
    what it was, or still absent.  Either way the countries not among [before] have the
    entries they had when the loop began. *)
Theorem rate_limit_halts_other_failures_skip (E : env)
    (before after : list work_item) (id name : string) (ts : option string)
    (channels_data0 channels_data1 : gmap string channels_entry)
    (w0 w1 : world) (text : string) :
  fetch_loop E before channels_data0 w0 = (Returns (Exhausted, channels_data1), w1) →
  api_channels E (requests w1) id = RequestException text →
  let todo := before ++ (id, name, ts) :: after in
  let w1' := log_request (ChannelsOfCountry id) w1 in
  channels_file w1' = channels_file w1 ∧
  requests w1' = requests w1 ++ [ChannelsOfCountry id] ∧
  (is_rate_limit text = true →
     fetch_loop E todo channels_data0 w0 = (Returns (Break, channels_data1), w1')) ∧
  (is_rate_limit text = false →
     fetch_loop E todo channels_data0 w0 = fetch_loop E after channels_data1 w1' ∧
     ∃ exit channels_data w,
       fetch_loop E after channels_data1 w1' = (Returns (exit, channels_data), w)) ∧
  (∀ k, k ∉ before.*1.*1 → channels_data1 !! k = channels_data0 !! k).
Proof.
  intros Hbefore Hfail todo w1'. split_and!; [done|done| | |].
  - intros Hrate. unfold todo. rewrite (fetch_loop_app _ _ _ _ _ _ _ Hbefore).
    simpl. rewrite run_bind, (fetch_channels_failure _ _ _ _ _ _ Hfail).
    by rewrite Hrate.
  - intros Hother. split; [|apply fetch_loop_returns].
    unfold todo. rewrite (fetch_loop_app _ _ _ _ _ _ _ Hbefore).
    simpl. rewrite run_bind, (fetch_channels_failure _ _ _ _ _ _ Hfail).
    by rewrite Hother.
  - intros k Hk. by apply (fetch_loop_frame _ _ _ _ _ _ _ _ Hbefore).
Qed.

(** *** The rewrite of the keyed cache *)

(** What [main] loads is what the disk holds, and every fetch keeps the
    dictionary in memory ahead of the disk. *)
Lemma load_channels_data_loaded (w w' : world) channels_data :
  load_channels_data w = (Returns channels_data, w') →
  w' = w ∧ loaded w channels_data.
Proof.
  unfold load_channels_data, loaded, holds.
  destruct (channels_file w) as [| |doc]; intros [= <- <-]; split; try done.
  - by intros k e (m & ? & _).
  - by intros k e (m & [= <-] & ?).
Qed.

Lemma fetch_channels_keeps_loaded (E : env) id name channels_data (w : world)
    result channels_data' w' :
  loaded w channels_data →
  fetch_channels_for_country E id name channels_data w
  = (Returns (result, channels_data'), w') →
  loaded w' channels_data'.
Proof.
  intros Hloaded.
  destruct (api_channels E (requests w) id) as [channels|text] eqn:Hapi.
  - rewrite (fetch_channels_success _ _ _ _ _ _ Hapi). intros [= _ <- <-].
    by intros k e (m & [= <-] & ?).
  - rewrite (fetch_channels_failure _ _ _ _ _ _ Hapi). by intros [= _ <- <-].
Qed.

Lemma fetch_loop_keeps_loaded (E : env) todo channels_data (w : world)
    exit channels_data' w' :
  loaded w channels_data →
  fetch_loop E todo channels_data w = (Returns (exit, channels_data'), w') →
  loaded w' channels_data'.
Proof.
  revert channels_data w. induction todo as [|[[id name] ts] todo IH]; intros cd w Hl.
  - simpl. rewrite run_ret. by intros [= _ <- <-].
  - simpl. rewrite run_bind.
    destruct (fetch_channels_for_country E id name cd w) as [[[result cd1]|e] w1] eqn:Hstep;
      [|done].
    pose proof (fetch_channels_keeps_loaded _ _ _ _ _ _ _ _ Hl Hstep) as Hl1.
    destruct result as [[]|].
    + by apply IH.
    + rewrite run_ret. by intros [= _ <- <-].
    + by apply IH.
Qed.

(** C4, as the code has it.  After a successful fetch for a country the
    whole dictionary is written over the cache file in place: once the
    write is complete the file holds the new entry and every entry it held
    under another key; but the write first truncates the file, so stopped
    after that step it holds no entry at all. *)
Theorem commit_rewrites_file_in_place (E : env) (id name : string)
    (channels_data : gmap string channels_entry) (w : world)
    (channels : channel_list) :
  loaded w channels_data →
  api_channels E (requests w) id = Payload channels →
  let stored := <[id := fetched_entry E w channels]> channels_data in
  ∃ w', fetch_channels_for_country E id name channels_data w
        = (Returns (Some true, stored), w') ∧
        channels_file w' = interrupted_write 2 stored (channels_file w) ∧
        holds (channels_file w') id (fetched_entry E w channels) ∧
        (∀ k e, k ≠ id → holds (channels_file w) k e → holds (channels_file w') k e) ∧
        (∀ k e, ¬ holds (interrupted_write 1 stored (channels_file w)) k e) ∧
        interrupted_write 0 stored (channels_file w) = channels_file w.
Proof.
  intros Hloaded Hapi stored.
  rewrite (fetch_channels_success _ _ _ _ _ _ Hapi). fold stored.
  eexists. split_and!; try done; simpl.
  - exists stored. split; [done|]. apply lookup_insert_eq.
  - intros k e Hne Hk. exists stored. split; [done|].
    unfold stored. rewrite lookup_insert_ne by done. by apply Hloaded.
  - by intros k e (m & ? & _).
Qed.

(** *** Worked examples *)

Import ChannelsScenario.

Lemma load_countries_fetch_policy_witness :
  (∃ w', load_countries rate_limited
           (disk (Doc (cached (Some "2026-11-01T08:30:00.000250Z"))) Missing)
         = (Returns (Some [austria; belgium]), w') ∧
         requests w' = [] ∧
         countries_file w' = Doc (cached (Some "2026-11-01T08:30:00.000250Z")) ∧
         channels_file w' = Missing) ∧
  (∃ w', load_countries rate_limited empty_disk
         = (Returns (Some [austria; belgium; croatia]), w') ∧
         requests w' = [Countries]) ∧
  (∃ w', load_countries rate_limited (disk (Doc (cached None)) Missing)
         = (Returns (Some [austria; belgium; croatia]), w') ∧
         requests w' = [Countries]) ∧
  (∃ w', load_countries rate_limited (disk (Doc (cached (Some "last week"))) Missing)
         = (Returns (Some [austria; belgium; croatia]), w') ∧
         requests w' = [Countries]) ∧
  (∃ w', load_countries unreachable
           (disk (Doc (cached (Some "2026-10-27T11:59:59Z"))) Missing)
         = (Returns None, w') ∧
         requests w' = [Countries]) ∧
  load_countries rate_limited (disk Torn Missing)
  = (Raises JSONDecodeError, disk Torn Missing).
Proof.
  split_and!.
  - apply (proj1 (load_countries_fetch_policy rate_limited
                    (disk (Doc (cached (Some "2026-11-01T08:30:00.000250Z"))) Missing))
             (cached (Some "2026-11-01T08:30:00.000250Z"))).
    split; [reflexivity|]. exists 63929118600000250.
    split; [vm_compute; reflexivity|vm_compute; discriminate].
  - apply (proj1 (proj2 (load_countries_fetch_policy rate_limited empty_disk))).
    left. reflexivity.
  - apply (proj1 (proj2 (load_countries_fetch_policy rate_limited
                           (disk (Doc (cached None)) Missing)))).
    right. eexists. split; [reflexivity|]. left. vm_compute. reflexivity.
  - apply (proj1 (proj2 (load_countries_fetch_policy rate_limited
                           (disk (Doc (cached (Some "last week"))) Missing)))).
    right. eexists. split; [reflexivity|]. left. vm_compute. reflexivity.
  - apply (proj1 (proj2 (load_countries_fetch_policy unreachable
                           (disk (Doc (cached (Some "2026-10-27T11:59:59Z"))) Missing)))).
    right. eexists. split; [reflexivity|]. right. exists 63928699199000000.
    split; [vm_compute; reflexivity|vm_compute; reflexivity].
  - apply (proj2 (proj2 (load_countries_fetch_policy rate_limited (disk Torn Missing)))).
    reflexivity.
Defined.

(** C1, as the specification has it, fails.  A [countries.json] that was
    cut short holds no document: the file exists and no timestamp can be
    read from it, yet [load_countries] neither serves cached data nor
    sends the one request; it raises, and the request log stays empty. *)
Lemma truncated_cache_is_neither_served_nor_fetched :
  let w := disk (interrupted_write 1 (cached None) Missing) Missing in
  let run := load_countries rate_limited w in
  countries_file w = Torn ∧
  run = (Raises JSONDecodeError, w) ∧
  (∀ countries, run.1 ≠ Returns countries) ∧
  requests run.2 = [] ∧
  requests run.2 ≠ requests w ++ [Countries].
Proof. split_and!; [reflexivity|reflexivity|discriminate|reflexivity|discriminate]. Qed.

Lemma fetch_countries_failure_keeps_cache_witness :
  ∃ w', fetch_countries unreachable (disk (Doc (cached (Some "2026-10-27T11:59:59Z"))) Missing)
        = (Returns None, w') ∧
        countries_file w' = Doc (cached (Some "2026-10-27T11:59:59Z")) ∧
        channels_file w' = Missing ∧
        requests w' = [Countries] ∧
        clock_reads w' = 0%nat.
Proof.
  apply (fetch_countries_failure_keeps_cache unreachable
           (disk (Doc (cached (Some "2026-10-27T11:59:59Z"))) Missing)
           "HTTPSConnectionPool(host='tv-plan.org', port=443): Max retries exceeded").
  reflexivity.
Defined.

(** C5, where the code departs from it.  The timestamp
    ["2026-11-01T08:30:00+00:00"] is well-formed ISO 8601 and parses, to an
    offset-aware datetime; [is_data_stale] then raises [TypeError] where
    the claim has it return. *)
Theorem is_data_stale_raises_on_offset_aware_timestamp (w : world) :
  is_data_stale rate_limited "2026-11-01T08:30:00+00:00" COUNTRIES_MAX_AGE_DAYS w
  = (Raises TypeError, tick w).
Proof. by apply (is_data_stale_aware _ _ _ _ 63929118600000000 0). Qed.

(** A missing timestamp reaches [is_data_stale] as the empty string, which
    the parser rejects like any other malformed text. *)
Example is_data_stale_without_timestamp (w : world) :
  is_data_stale rate_limited "" COUNTRIES_MAX_AGE_DAYS w = (Returns true, w) ∧
  is_data_stale rate_limited "last week" COUNTRIES_MAX_AGE_DAYS w = (Returns true, w).
Proof. split; by apply is_data_stale_unparseable. Qed.

(** The same timestamp in the cache file stops [load_countries] before
    any request. *)
Example load_countries_raises_on_offset_aware_timestamp :
  let w := disk (Doc (cached (Some "2026-11-01T08:30:00+00:00"))) Missing in
  load_countries rate_limited w = (Raises TypeError, tick w).
Proof. reflexivity. Qed.

(** The rate limit is recognised in the text of the exception, which
    ends with the URL: a server error for country 1429 reads as one. *)
Example rate_limit_is_read_from_the_text :
  is_rate_limit too_many_requests = true ∧
  is_rate_limit server_error = false ∧
  is_rate_limit "Rate Limit exceeded" = true ∧
  is_rate_limit ("500 Server Error: Internal Server Error for url: " +:+ url "1429") = true.
Proof. repeat split. Qed.

(** A first run on an empty disk: the countries are fetched and cached,
    then Austria's channels; at Belgium the API refuses and the run ends. *)
Example main_runs_until_the_rate_limit :
  ∃ w, main rate_limited empty_disk = (Returns (), w) ∧
    requests w = [Countries; ChannelsOfCountry "1"; ChannelsOfCountry "2"] ∧
    countries_file w
    = Doc {| cache_data := [austria; belgium; croatia];
             cache_timestamp := Some "2026-11-03T12:00:00Z" |} ∧
    channels_file w = Doc {["1" := entry_of "1" (Some "2026-11-03T12:00:01Z")]}.
Proof. eexists. split; [reflexivity|]. repeat split. Qed.

Example austria_first_order :
  austria_first = [("1", "Austria", None); ("2", "Belgium", None); ("3", "Croatia", None)].
Proof. reflexivity. Qed.

Lemma rate_limit_halts_other_failures_skip_witness :
  let after_austria (E : env) :=
    set_channels_file (Doc {["1" := fetched_entry E (log_request (ChannelsOfCountry "1") empty_disk) (channels_of "1")]})
      (tick (log_request (ChannelsOfCountry "1") empty_disk)) in
  (∃ channels_data w,
     fetch_loop rate_limited austria_first ∅ empty_disk = (Returns (Break, channels_data), w) ∧
     dom channels_data = {["1"]} ∧
     channels_file w = Doc channels_data ∧
     requests w = [ChannelsOfCountry "1"; ChannelsOfCountry "2"]) ∧
  (∃ channels_data w,
     fetch_loop failing austria_first ∅ empty_disk = (Returns (Exhausted, channels_data), w) ∧
     dom channels_data = {["1"; "3"]} ∧
     channels_file w = Doc channels_data ∧
     requests w = [ChannelsOfCountry "1"; ChannelsOfCountry "2"; ChannelsOfCountry "3"]).
Proof.
  intros after_austria. split.
  - destruct (rate_limit_halts_other_failures_skip rate_limited
                [("1", "Austria", None)] [("3", "Croatia", None)] "2" "Belgium" None
                ∅ _ empty_disk (after_austria rate_limited) too_many_requests
                eq_refl eq_refl) as (_ & _ & Hhalt & _ & _).
    eexists _, _. split; [exact (Hhalt eq_refl)|]. split_and!; reflexivity.
  - destruct (rate_limit_halts_other_failures_skip failing
                [("1", "Austria", None)] [("3", "Croatia", None)] "2" "Belgium" None
                ∅ _ empty_disk (after_austria failing) server_error
                eq_refl eq_refl) as (_ & _ & _ & Hskip & _).
    eexists _, _. split; [etrans; [exact (proj1 (Hskip eq_refl))|reflexivity]|].
    split_and!; reflexivity.
Defined.

Lemma fetch_order_new_first_then_by_text_example :
  fetch_order keyed_cache [belgium; croatia; austria]
  = [("1", "Austria", None);
     ("3", "Croatia", Some "2026-10-01T09:30:00Z");
     ("2", "Belgium", Some "2026-11-02T10:00:00.000250Z")] ∧
  (0 < 2)%nat ∧
  str_lt "2026-11-02T10:00:00.000250Z" "2026-10-01T09:30:00Z" = false ∧
  (1 < 2)%nat.
Proof.
  destruct (fetch_order_new_first_then_by_text keyed_cache [belgium; croatia; austria])
    as (_ & _ & Hnew & Hold & Hexample).
  split_and!.
  - apply (Hexample austria belgium croatia
             (entry_of "2" (Some "2026-11-02T10:00:00.000250Z"))
             (entry_of "3" (Some "2026-10-01T09:30:00Z"))
             "2026-11-02T10:00:00.000250Z" "2026-10-01T09:30:00Z");
      try reflexivity.
    etrans; [apply Permutation_skip, Permutation_swap|apply Permutation_swap].
  - apply (Hnew 0%nat 2%nat ("1", "Austria", None)
             ("2", "Belgium", Some "2026-11-02T10:00:00.000250Z"));
      try reflexivity.
    by eexists.
  - apply (proj1 (Hold 1%nat 2%nat ("3", "Croatia", Some "2026-10-01T09:30:00Z")
                    ("2", "Belgium", Some "2026-11-02T10:00:00.000250Z")
                    "2026-10-01T09:30:00Z" "2026-11-02T10:00:00.000250Z"
                    eq_refl eq_refl eq_refl eq_refl)).
    lia.
  - apply (proj2 (Hold 1%nat 2%nat ("3", "Croatia", Some "2026-10-01T09:30:00Z")
                    ("2", "Belgium", Some "2026-11-02T10:00:00.000250Z")
                    "2026-10-01T09:30:00Z" "2026-11-02T10:00:00.000250Z"
                    eq_refl eq_refl eq_refl eq_refl)).
    reflexivity.
Defined.

(** C3.  The entries are not always taken oldest first.  The loop itself
    writes the cache of this run: Croatia is fetched at noon sharp and
    stamped without a fraction, Belgium 250 microseconds later.  On the
    next run Austria, which has no entry, comes first; then comes Belgium,
    whose entry is the newer one, and Croatia, whose entry is the oldest,
    comes last: as text, the stamp with the fraction is the smaller. *)
Theorem fetch_order_takes_the_newer_entry_first :
  let first_run :=
    fetch_loop quick [("3", "Croatia", None); ("2", "Belgium", None)] ∅ empty_disk in
  first_run.1 = Returns (Exhausted, croatia_then_belgium) ∧
  channels_file first_run.2 = Doc croatia_then_belgium ∧
  recorded croatia_then_belgium "3" = Some (Iso.isoformat (clock quick 0) +:+ "Z") ∧
  recorded croatia_then_belgium "2" = Some (Iso.isoformat (clock quick 1) +:+ "Z") ∧
  fromisoformat quick (Py.replace_Z "2026-11-03T12:00:00Z")
  = Some (naive (clock quick 0)) ∧
  fromisoformat quick (Py.replace_Z "2026-11-03T12:00:00.000250Z")
  = Some (naive (clock quick 1)) ∧
  clock quick 0 < clock quick 1 ∧
  str_lt "2026-11-03T12:00:00.000250Z" "2026-11-03T12:00:00Z" = true ∧
  fetch_order croatia_then_belgium [austria; belgium; croatia]
  = [("1", "Austria", None);
     ("2", "Belgium", Some "2026-11-03T12:00:00.000250Z");
     ("3", "Croatia", Some "2026-11-03T12:00:00Z")].
Proof. split_and!; vm_compute; reflexivity. Qed.

Lemma fetch_order_blank_timestamp_witness :
  fetch_order keyed_cache_blank [belgium; austria; croatia; denmark]
  = [("4", "Denmark", None); ("1", "Austria", Some "");
     ("3", "Croatia", Some "2026-10-01T09:30:00Z");
     ("2", "Belgium", Some "2026-11-02T10:00:00.000250Z")] ∧
  sort_key ("1", "Austria", Some "") = (true, "") ∧
  (0 < 1)%nat ∧ (1 < 3)%nat.
Proof.
  split; [reflexivity|].
  destruct (fetch_order_blank_timestamp keyed_cache_blank
              [belgium; austria; croatia; denmark] 1 0
              ("1", "Austria", Some "") ("4", "Denmark", None) (entry_of "1" None)
              eq_refl eq_refl eq_refl (or_introl eq_refl)) as (Hkey & Hnew & _).
  destruct (fetch_order_blank_timestamp keyed_cache_blank
              [belgium; austria; croatia; denmark] 1 3
              ("1", "Austria", Some "")
              ("2", "Belgium", Some "2026-11-02T10:00:00.000250Z") (entry_of "1" None)
              eq_refl eq_refl eq_refl (or_introl eq_refl)) as (_ & _ & Hknown).
  split_and!; [exact Hkey|exact (Hnew eq_refl)|].
  by apply (Hknown (entry_of "2" (Some "2026-11-02T10:00:00.000250Z"))
              "2026-11-02T10:00:00.000250Z").
Defined.

Lemma commit_rewrites_file_in_place_witness :
  let w := disk Missing (Doc keyed_cache) in
  let austria_entry := fetched_entry rate_limited w (channels_of "1") in
  let stored := <["1" := austria_entry]> keyed_cache in
  ∃ w', fetch_channels_for_country rate_limited "1" "Austria" keyed_cache w
        = (Returns (Some true, stored), w') ∧
        channels_file w' = interrupted_write 2 stored (channels_file w) ∧
        holds (channels_file w') "1" austria_entry ∧
        (∀ k e, k ≠ "1" → holds (channels_file w) k e → holds (channels_file w') k e) ∧
        (∀ k e, ¬ holds (interrupted_write 1 stored (channels_file w)) k e) ∧
        interrupted_write 0 stored (channels_file w) = channels_file w.
Proof.
  intros w austria_entry stored.
  apply (commit_rewrites_file_in_place rate_limited "1" "Austria" keyed_cache w
           (channels_of "1")); [|reflexivity].
  intros k e (m & Hm & Hk). by injection Hm as <-.
Defined.

(** C4, as the specification has it, fails.  Austria is fetched while the
    cache file holds the entries of Belgium and Croatia; stopped after the
    first step of the write, the file holds neither. *)
Lemma interrupted_commit_loses_committed_keys :
  ∃ stored w',
    fetch_channels_for_country rate_limited "1" "Austria" keyed_cache
      (disk Missing (Doc keyed_cache))
    = (Returns (Some true, stored), w') ∧
    holds (Doc keyed_cache) "2" (entry_of "2" (Some "2026-11-02T10:00:00.000250Z")) ∧
    interrupted_write 1 stored (Doc keyed_cache) = Torn ∧
    load_channels_data (disk Missing (interrupted_write 1 stored (Doc keyed_cache)))
    = (Raises JSONDecodeError, disk Missing Torn) ∧
    ¬ survives_interruption "1" (Doc keyed_cache) stored.
Proof.
  eexists _, _.
  split; [by apply (fetch_channels_success rate_limited "1" "Austria" keyed_cache
                      _ (channels_of "1"))|].
  assert (holds (Doc keyed_cache) "2" (entry_of "2" (Some "2026-11-02T10:00:00.000250Z")))
    as Hheld by (by exists keyed_cache).
  split_and!; [done|reflexivity|reflexivity|].
  intros Hsafe. destruct (Hsafe 1%nat "2" _ ltac:(done) Hheld) as (m & Hm & _).
  discriminate Hm.
Qed.
End ChannelsProofs.

(** ** [generate-options.py] *)

Module OptionsProofs.
Import Py PyFacts GenerateOptions.

(** *** The two loops as one comprehension *)

(** The name the code computes is the display name. *)
Lemma display_name_shown_as (shown plain : option string) :
  display_name shown plain = shown_as shown plain.
Proof. by destruct shown, plain. Qed.

Lemma add_channel_spec (c : country) (acc : generated) (ch : channel) :
  let acc' := add_channel (display_name (country_display_name c) (country_name c)) acc ch in
  channel_options acc' = channel_options acc ++ channel_adds c ch ∧
  total_channels acc' = (total_channels acc + length (channel_adds c ch))%nat ∧
  warnings acc' = warnings acc.
Proof.
  unfold add_channel, channel_adds, carries_identifier, option_entry.
  rewrite !display_name_shown_as.
  destruct (channel_id ch) as [id|]; [destruct (truthy id)|]; simpl;
    rewrite ?app_nil_r; split_and!; try done; lia.
Qed.

Lemma add_channels_spec (c : country) (acc : generated) (channels : list channel) :
  let acc' := foldl (add_channel (display_name (country_display_name c) (country_name c)))
                acc channels in
  channel_options acc' = channel_options acc ++ (channels ≫= channel_adds c) ∧
  total_channels acc' = (total_channels acc + length (channels ≫= channel_adds c))%nat ∧
  warnings acc' = warnings acc.
Proof.
  revert acc. induction channels as [|ch channels IH]; intros acc.
  - simpl. by rewrite app_nil_r, Nat.add_0_r.
  - rewrite bind_cons, length_app. cbn [foldl].
    destruct (IH (add_channel (display_name (country_display_name c) (country_name c)) acc ch))
      as (-> & -> & ->).
    destruct (add_channel_spec c acc ch) as (-> & -> & ->).
    rewrite <-app_assoc. split_and!; try done; lia.
Qed.

Lemma add_country_spec (countries : gmap string country) (acc : generated)
    (item : string * channels_entry) :
  let acc' := add_country countries acc item in
  channel_options acc' = channel_options acc ++ item_adds countries item ∧
  total_channels acc' = (total_channels acc + length (item_adds countries item))%nat ∧
  warnings acc' = warnings acc ++ item_warns countries item.
Proof.
  destruct item as [id entry]. unfold add_country, item_adds, item_warns. simpl.
  destruct (countries !! id) as [c|]; simpl.
  - destruct (add_channels_spec c acc (default [] (entry_data entry))) as (-> & -> & ->).
    by rewrite app_nil_r.
  - by rewrite app_nil_r, Nat.add_0_r.
Qed.

Lemma add_countries_spec (countries : gmap string country) (acc : generated)
    (channels_data : channels_dict) :
  let acc' := foldl (add_country countries) acc channels_data in
  channel_options acc' = channel_options acc ++ (channels_data ≫= item_adds countries) ∧
  total_channels acc'
  = (total_channels acc + length (channels_data ≫= item_adds countries))%nat ∧
  warnings acc' = warnings acc ++ (channels_data ≫= item_warns countries).
Proof.
  revert acc. induction channels_data as [|item channels_data IH]; intros acc.
  - simpl. by rewrite !app_nil_r, Nat.add_0_r.
  - rewrite !bind_cons, length_app. cbn [foldl].
    destruct (IH (add_country countries acc item)) as (-> & -> & ->).
    destruct (add_country_spec countries acc item) as (-> & -> & ->).
    rewrite <-!app_assoc. split_and!; try done; lia.
Qed.

Lemma build_channel_options_spec (countries : list country) (channels_data : channels_dict) :
  let acc := build_channel_options countries channels_data in
  channel_options acc = channels_data ≫= item_adds (country_map countries) ∧
  total_channels acc = length (channels_data ≫= item_adds (country_map countries)) ∧
  warnings acc = channels_data ≫= item_warns (country_map countries).
Proof. apply (add_countries_spec _ nothing_generated). Qed.


(** *** The dictionary of countries *)

Lemma country_map_snoc (countries : list country) (c : country) :
  country_map (countries ++ [c]) = <[country_id c := c]> (country_map countries).
Proof. unfold country_map. by rewrite foldl_snoc. Qed.

(** Of the countries with one id the last one is in the dictionary. *)
Lemma country_map_cons (c : country) (countries : list country) (k : string) :
  country_map (c :: countries) !! k
  = match country_map countries !! k with
    | Some c' => Some c'
    | None => if decide (k = country_id c) then Some c else None
    end.
Proof.
  induction countries as [|c' countries IH] using rev_ind.
  - unfold country_map. simpl. rewrite lookup_empty.
    destruct (decide (k = country_id c)) as [->|].
    + by rewrite lookup_insert_eq.
    + rewrite lookup_insert_ne by done. apply lookup_empty.
  - rewrite app_comm_cons, !country_map_snoc.
    destruct (decide (k = country_id c')) as [->|].
    + by rewrite !lookup_insert_eq.
    + by rewrite !lookup_insert_ne by done.
Qed.

Lemma country_map_lookup_None (countries : list country) (k : string) :
  k ∉ country_id <$> countries → country_map countries !! k = None.
Proof.
  induction countries as [|c countries IH]; [done|].
  rewrite fmap_cons, not_elem_of_cons. intros [Hne Hk].
  rewrite country_map_cons, (IH Hk). by rewrite decide_False.
Qed.

Lemma country_map_lookup_Some (countries : list country) (k : string) (c : country) :
  country_map countries !! k = Some c → c ∈ countries ∧ country_id c = k.
Proof.
  induction countries as [|c' countries IH]; [done|].
  rewrite country_map_cons. destruct (country_map countries !! k) as [c''|].
  - intros [= ->]. destruct IH as [? ?]; [done|]. split; [by right|done].
  - destruct (decide (k = country_id c')); intros [= ->]. split; [by left|done].
Qed.

(** When ids are unique, looking a key up in the dictionary is selecting
    the countries with that id. *)
Lemma country_map_select {B} (countries : list country) (k : string)
    (h : country → list B) :
  NoDup (country_id <$> countries) →
  (countries ≫= λ c, if decide (k = country_id c) then h c else [])
  = match country_map countries !! k with
    | Some c => h c
    | None => []
    end.
Proof.
  induction countries as [|c countries IH]; [done|].
  rewrite fmap_cons, NoDup_cons. intros [Hc Hnodup].
  rewrite bind_cons, country_map_cons, (IH Hnodup).
  destruct (decide (k = country_id c)) as [->|].
  - rewrite (country_map_lookup_None _ _ Hc). apply app_nil_r.
  - by destruct (country_map countries !! k).
Qed.

(** *** Exchanging two comprehensions *)

Lemma bind_app_perm {A B} (f g : A → list B) (l : list A) :
  (l ≫= λ x, f x ++ g x) ≡ₚ (l ≫= f) ++ (l ≫= g).
Proof.
  induction l as [|x l IH]; [done|].
  rewrite !bind_cons, IH, <-!app_assoc. apply Permutation_app_head.
  rewrite !app_assoc. apply Permutation_app_tail, Permutation_app_comm.
Qed.

Lemma bind_nil_r {A B} (l : list A) : (l ≫= λ _, @nil B) = [].
Proof. induction l as [|x l IH]; [done|]. by rewrite bind_cons, IH. Qed.

Lemma bind_exchange {A B C} (f : A → B → list C) (l : list A) (k : list B) :
  (l ≫= λ x, k ≫= f x) ≡ₚ (k ≫= λ y, l ≫= λ x, f x y).
Proof.
  induction l as [|x l IH].
  - simpl. by rewrite bind_nil_r.
  - rewrite bind_cons, IH. symmetry.
    exact (bind_app_perm (f x) (λ y, l ≫= λ x', f x' y) k).
Qed.

(** With unique ids the loops produce the join. *)
Lemma build_is_join (countries : list country) (channels_data : channels_dict) :
  NoDup (country_id <$> countries) →
  channels_data ≫= item_adds (country_map countries)
  ≡ₚ joined_options countries channels_data.
Proof.
  intros Hnodup. unfold joined_options.
  etrans; [|symmetry; apply bind_exchange].
  erewrite list_bind_ext; [done| |done]. intros item.
  unfold item_adds. by rewrite <-(country_map_select _ _ _ Hnodup).
Qed.

(** *** The run as a whole *)

Lemma create_options_yml_generates (E : env) (data : countries_cache)
    (channels_data : channels_dict) :
  default [] (cache_data data) ≠ [] → channels_data ≠ [] →
  let acc := build_channel_options (default [] (cache_data data)) channels_data in
  create_options_yml E (Doc data) (Doc channels_data)
  = Returns (Some {| channel_options :=
                       sort_by str_lt (option_sort_key E) (channel_options acc);
                     total_channels := total_channels acc;
                     warnings := warnings acc |}).
Proof.
  intros Hc Hd. unfold create_options_yml. simpl.
  destruct (default [] (cache_data data)); [done|].
  by destruct channels_data.
Qed.

Lemma joined_options_elem (countries : list country) (channels_data : channels_dict)
    (c : country) (entry : channels_entry) (ch : channel) :
  c ∈ countries → (country_id c, entry) ∈ channels_data →
  ch ∈ default [] (entry_data entry) → carries_identifier ch = true →
  option_entry c ch ∈ joined_options countries channels_data.
Proof.
  intros Hc Hitem Hch Hid. unfold joined_options.
  apply list_elem_of_bind. exists c. split; [|done].
  apply list_elem_of_bind. exists (country_id c, entry). split; [|done].
  simpl. rewrite decide_True by done.
  apply list_elem_of_bind. exists ch. split; [|done].
  rewrite Hid. by left.
Qed.

(** C7.  Taking the countries by their ids (no two countries share one),
    the two loops generate, up to order, one entry for every pair of a
    country and a channel listed under the country's id whose identifier is
    present and not empty, and none for any other channel; the counter of
    the loop is their number.  A run that gets past the required-data
    check hands these entries, sorted, to the writer.  The entry's label
    is the country's display name, [" - "] and the channel's display name;
    its value is the channel's identifier, ["|"] and the channel's display
    name: for a country shown as [country_shown] and a channel with the
    identifier [id] shown as [channel_shown], the entry with the label
    [country_shown - channel_shown] and the value [id|channel_shown] is
    among the generated ones. *)
Theorem options_are_the_join (countries : list country) (channels_data : channels_dict) :
  NoDup (country_id <$> countries) →
  let built := build_channel_options countries channels_data in
  channel_options built ≡ₚ joined_options countries channels_data ∧
  total_channels built = length (joined_options countries channels_data) ∧
  (∀ E data, default [] (cache_data data) = countries →
     countries ≠ [] → channels_data ≠ [] →
     ∃ out, create_options_yml E (Doc data) (Doc channels_data) = Returns (Some out) ∧
       channel_options out ≡ₚ joined_options countries channels_data ∧
       total_channels out = length (joined_options countries channels_data)) ∧
  (∀ c entry ch id country_shown channel_shown,
     c ∈ countries → (country_id c, entry) ∈ channels_data →
     ch ∈ default [] (entry_data entry) →
     channel_id ch = Some id → id ≠ "" →
     country_display_name c = Some country_shown →
     channel_display_name ch = Some channel_shown →
     (country_shown +:+ " - " +:+ channel_shown, id +:+ "|" +:+ channel_shown)
     ∈ channel_options built).
Proof.
  intros Hnodup built.
  destruct (build_channel_options_spec countries channels_data) as (Hopts & Htotal & _).
  fold built in Hopts, Htotal.
  assert (channel_options built ≡ₚ joined_options countries channels_data) as Hjoin
    by (by rewrite Hopts, build_is_join).
  split_and!.
  - done.
  - by rewrite Htotal, build_is_join.
  - intros E data <- Hc Hd.
    rewrite (create_options_yml_generates E data channels_data Hc Hd). fold built.
    eexists. split; [done|]. simpl. split.
    + by rewrite sort_by_perm.
    + by rewrite Htotal, build_is_join.
  - intros c entry ch id country_shown channel_shown Hc Hitem Hch Hid Hne Hcs Hchs.
    rewrite Hjoin.
    assert (carries_identifier ch = true) as Hcarries
      by (unfold carries_identifier; rewrite Hid; by destruct id).
    pose proof (joined_options_elem countries channels_data c entry ch
                  Hc Hitem Hch Hcarries) as Hin.
    unfold option_entry in Hin. by rewrite Hid, Hcs, Hchs in Hin.
Qed.

(** C8.  An item of the keyed cache whose id no country has is passed
    over by the loop: a warning naming the id is printed, and the options
    and their count are those of the cache without the item, so the items
    after it are still processed.  A run that gets past the required-data
    check returns these options, sorted, and the warning. *)
Theorem unknown_country_is_skipped (E : env) (countries : list country)
    (before after : channels_dict) (id : string) (entry : channels_entry) :
  id ∉ country_id <$> countries →
  let built := build_channel_options countries (before ++ (id, entry) :: after) in
  let without := build_channel_options countries (before ++ after) in
  unknown_country_warning id ∈ warnings built ∧
  channel_options built = channel_options without ∧
  total_channels built = total_channels without ∧
  (∀ data, default [] (cache_data data) = countries → countries ≠ [] →
     ∃ out, create_options_yml E (Doc data) (Doc (before ++ (id, entry) :: after))
            = Returns (Some out) ∧
       unknown_country_warning id ∈ warnings out ∧
       channel_options out
       = sort_by str_lt (option_sort_key E) (channel_options without) ∧
       total_channels out = total_channels without).
Proof.
  intros Hid built without.
  destruct (build_channel_options_spec countries (before ++ (id, entry) :: after))
    as (Hopts & Htotal & Hwarn).
  destruct (build_channel_options_spec countries (before ++ after))
    as (Hopts' & Htotal' & _).
  fold built in Hopts, Htotal, Hwarn. fold without in Hopts', Htotal'.
  pose proof (country_map_lookup_None _ _ Hid) as Hnone.
  assert (item_adds (country_map countries) (id, entry) = []) as Hadds
    by (unfold item_adds; simpl; by rewrite Hnone).
  assert (unknown_country_warning id ∈ warnings built) as Hwarned.
  { rewrite Hwarn, bind_app, bind_cons. unfold item_warns at 2. simpl.
    rewrite Hnone. set_solver. }
  assert (channel_options built = channel_options without) as Hsame
    by (by rewrite Hopts, Hopts', !bind_app, bind_cons, Hadds).
  assert (total_channels built = total_channels without) as Hcount
    by (by rewrite Htotal, Htotal', !bind_app, bind_cons, Hadds).
  split_and!; try done.
  intros data <- Hc.
  rewrite (create_options_yml_generates E data _ Hc) by (by destruct before).
  fold built. eexists. split; [done|]. simpl. by rewrite Hsame.
Qed.

(** *** Sorting *)

Lemma item_adds_same_channels (countries : gmap string country)
    (a b : string * channels_entry) :
  same_channels a b → item_adds countries a ≡ₚ item_adds countries b.
Proof.
  intros [Hid Hchannels]. unfold item_adds. rewrite Hid.
  destruct (countries !! b.1); [|done]. by rewrite Hchannels.
Qed.

Lemma item_adds_reordered (countries : gmap string country)
    (channels_data channels_data' : channels_dict) :
  reordered channels_data channels_data' →
  channels_data ≫= item_adds countries ≡ₚ channels_data' ≫= item_adds countries.
Proof.
  intros (mid & Hperm & Hsame). rewrite Hperm. clear Hperm.
  induction Hsame as [|a b mid rest Hab _ IH]; [done|].
  by rewrite !bind_cons, IH, (item_adds_same_channels _ _ _ Hab).
Qed.

Lemma reordered_nonempty (channels_data channels_data' : channels_dict) :
  reordered channels_data channels_data' → channels_data ≠ [] → channels_data' ≠ [].
Proof.
  intros (mid & Hperm & Hsame) Hne ->. apply Forall2_nil_inv_r in Hsame as ->.
  by apply Permutation_nil_r in Hperm.
Qed.

(** Two lists sorted by lowered label that hold the same options show
    the same lowered labels, place by place. *)
Lemma lowered_labels_unique (E : env) (l1 l2 : list (string * string)) :
  StronglySorted (by_label_ignoring_case E) l1 →
  StronglySorted (by_label_ignoring_case E) l2 →
  l1 ≡ₚ l2 → lowered_labels E l1 = lowered_labels E l2.
Proof.
  intros Hs1 Hs2 Hperm. unfold lowered_labels.
  apply (StronglySorted_unique_strong (λ a b, str_lt b a = false)).
  - intros a b _ _ Hab Hba. symmetry. by apply (lt_total (lt:=str_lt)).
  - by apply (StronglySorted_fmap _ (by_label_ignoring_case E)).
  - by apply (StronglySorted_fmap _ (by_label_ignoring_case E)).
  - by rewrite Hperm.
Qed.

(** C6.  The generated options are sorted by label without regard to
    case: along the list no label, lowered, is smaller than one before it.
    Given the same keyed cache with its items, and the channels under each
    key, in another order, the run generates the same options up to
    order, with the same lowered labels place by place: the two lists
    differ at most in the order of options whose lowered labels are equal,
    and these stand in the order in which the loops came to them, which is
    the order of the file.  The two lists are the same list when no two
    options have labels that are equal lowered without being the same
    option. *)
Theorem options_sorted_whatever_the_order (E : env) (data : countries_cache)
    (channels_data channels_data' : channels_dict) :
  let countries := default [] (cache_data data) in
  countries ≠ [] → channels_data ≠ [] → reordered channels_data channels_data' →
  ∃ out out',
    create_options_yml E (Doc data) (Doc channels_data) = Returns (Some out) ∧
    create_options_yml E (Doc data) (Doc channels_data') = Returns (Some out') ∧
    StronglySorted (by_label_ignoring_case E) (channel_options out) ∧
    StronglySorted (by_label_ignoring_case E) (channel_options out') ∧
    channel_options out ≡ₚ channel_options out' ∧
    lowered_labels E (channel_options out) = lowered_labels E (channel_options out') ∧
    (∀ label,
       with_lowered_label E label (channel_options out)
       = with_lowered_label E label
           (channel_options (build_channel_options countries channels_data)) ∧
       with_lowered_label E label (channel_options out')
       = with_lowered_label E label
           (channel_options (build_channel_options countries channels_data'))) ∧
    ((∀ x y, x ∈ channel_options out → y ∈ channel_options out →
        str_lower E x.1 = str_lower E y.1 → x = y) →
     channel_options out = channel_options out').
Proof.
  intros countries Hc Hd Hre.
  pose proof (reordered_nonempty _ _ Hre Hd) as Hd'.
  rewrite (create_options_yml_generates E data channels_data Hc Hd).
  rewrite (create_options_yml_generates E data channels_data' Hc Hd').
  fold countries.
  destruct (build_channel_options_spec countries channels_data) as (Hopts & _ & _).
  destruct (build_channel_options_spec countries channels_data') as (Hopts' & _ & _).
  eexists _, _. split; [done|]. split; [done|]. simpl.
  assert (sort_by str_lt (option_sort_key E)
            (channel_options (build_channel_options countries channels_data))
          ≡ₚ sort_by str_lt (option_sort_key E)
               (channel_options (build_channel_options countries channels_data')))
    as Hperm.
  { rewrite !sort_by_perm, Hopts, Hopts'. by apply item_adds_reordered. }
  assert (∀ l, StronglySorted (by_label_ignoring_case E)
                 (sort_by str_lt (option_sort_key E) l)) as Hsorted
    by (intros l; apply (sort_by_sorted str_lt (option_sort_key E))).
  split_and!; [done|done|done|by apply lowered_labels_unique| |].
  { intros label. split; apply (sort_by_stable str_lt (option_sort_key E)). }
  intros Hties.
  apply (StronglySorted_unique_strong (by_label_ignoring_case E)); [|done|done|done].
  intros x y Hx Hy Hxy Hyx. apply Hties; [done|by rewrite Hperm|].
  symmetry. by apply (lt_total (lt:=str_lt)).
Qed.

(** *** Worked examples *)

Import OptionsScenario.

(** A string that is none of the listed ones. *)
Ltac absent :=
  repeat (apply not_elem_of_cons; split; [done|]); apply not_elem_of_nil.

Example create_options_yml_example :
  create_options_yml on_ascii (Doc countries_json) (Doc channels_json)
  = Returns (Some {| channel_options := generated_options;
                     total_channels := 4;
                     warnings := ["Warning: Country ID 9 not found in countries data"] |}).
Proof. reflexivity. Qed.

(** Compared by code unit, ["Banana"] comes before ["apple"]; the sort
    key puts ["apple"] first. *)
Example apple_before_banana :
  str_lt "Banana" "apple" = true ∧
  caseless_le on_ascii "apple" "Banana" ∧ ¬ caseless_le on_ascii "Banana" "apple".
Proof. split_and!; [reflexivity|reflexivity|discriminate]. Qed.

Lemma options_are_the_join_witness :
  channel_options (build_channel_options [country_x; apple; banana] channels_json)
  ≡ₚ joined_options [country_x; apple; banana] channels_json ∧
  (∃ out, create_options_yml on_ascii (Doc countries_json) (Doc channels_json)
          = Returns (Some out) ∧
     channel_options out ≡ₚ joined_options [country_x; apple; banana] channels_json ∧
     total_channels out = length (joined_options [country_x; apple; banana] channels_json)) ∧
  ("Country X - Sports", "c2|Sports")
  ∈ channel_options (build_channel_options [country_x; apple; banana] channels_json).
Proof.
  assert (NoDup (country_id <$> [country_x; apple; banana])) as Hnodup.
  { simpl. repeat (apply NoDup_cons; split; [absent|]). apply NoDup_nil_2. }
  destruct (options_are_the_join [country_x; apple; banana] channels_json Hnodup)
    as (Hbuilt & _ & Hrun & Hentry).
  split_and!; [exact Hbuilt|by apply (Hrun on_ascii countries_json)|].
  apply (Hentry country_x (listing [sports; radio; news]) sports "c2"
           "Country X" "Sports"); try done.
  - by left.
  - by right; left.
  - by left.
Defined.

Lemma unknown_country_is_skipped_witness :
  ∃ out, create_options_yml on_ascii (Doc countries_json) (Doc channels_json)
         = Returns (Some out) ∧
    unknown_country_warning "9" ∈ warnings out ∧
    channel_options out
    = sort_by str_lt (option_sort_key on_ascii)
        (channel_options
           (build_channel_options [country_x; apple; banana]
              [("3", listing [kids]); ("1", listing [sports; radio; news]);
               ("2", listing [test_card; kids])])) ∧
    total_channels out
    = total_channels
        (build_channel_options [country_x; apple; banana]
           [("3", listing [kids]); ("1", listing [sports; radio; news]);
            ("2", listing [test_card; kids])]).
Proof.
  assert ("9" ∉ country_id <$> [country_x; apple; banana]) as Hid
    by (simpl; absent).
  destruct (unknown_country_is_skipped on_ascii [country_x; apple; banana]
              [("3", listing [kids]); ("1", listing [sports; radio; news])]
              [("2", listing [test_card; kids])] "9" (listing [news]) Hid)
    as (_ & _ & _ & Hrun).
  by apply (Hrun countries_json).
Defined.

Lemma options_sorted_whatever_the_order_witness :
  ∃ out out',
    create_options_yml on_ascii (Doc countries_json) (Doc channels_json)
    = Returns (Some out) ∧
    create_options_yml on_ascii (Doc countries_json) (Doc channels_json_shuffled)
    = Returns (Some out') ∧
    StronglySorted (by_label_ignoring_case on_ascii) (channel_options out) ∧
    StronglySorted (by_label_ignoring_case on_ascii) (channel_options out') ∧
    channel_options out ≡ₚ channel_options out' ∧
    lowered_labels on_ascii (channel_options out)
    = lowered_labels on_ascii (channel_options out') ∧
    channel_options out = generated_options ∧
    channel_options out' = generated_options.
Proof.
  assert (reordered channels_json channels_json_shuffled) as Hre.
  { exists [("1", listing [sports; radio; news]); ("2", listing [test_card; kids]);
            ("9", listing [news]); ("3", listing [kids])].
    split.
    - change channels_json with
        ([("3", listing [kids])]
         ++ [("1", listing [sports; radio; news]); ("9", listing [news]);
             ("2", listing [test_card; kids])]).
      etrans; [apply Permutation_app_comm|]. simpl.
      apply Permutation_skip, Permutation_swap.
    - repeat constructor. simpl.
      etrans; [apply Permutation_skip, Permutation_swap|apply Permutation_swap]. }
  destruct (options_sorted_whatever_the_order on_ascii countries_json channels_json
              channels_json_shuffled ltac:(done) ltac:(done) Hre)
    as (out & out' & Hrun & Hrun' & Hs & Hs' & Hp & Hl & _ & Hsame).
  exists out, out'. split_and!; try done.
  - rewrite create_options_yml_example in Hrun. by injection Hrun as <-.
  - rewrite <-Hsame.
    + rewrite create_options_yml_example in Hrun. by injection Hrun as <-.
    + intros x y.
      rewrite create_options_yml_example in Hrun. injection Hrun as <-. simpl.
      unfold generated_options. rewrite !elem_of_cons, !elem_of_nil.
      intros [->|[->|[->|[->|[]]]]] [->|[->|[->|[->|[]]]]]; done.
Defined.

(** C6, as the specification has it, fails.  Two channels of Country X are
    called News and NEWS; listed in the one order and in the other they
    give the same two options, each time in the order of the file. *)
Lemma tied_labels_keep_the_order_of_the_file :
  reordered tied_channels tied_channels_swapped ∧
  create_options_yml on_ascii (Doc countries_json) (Doc tied_channels)
  = Returns (Some {| channel_options :=
                       [("Country X - News", "c1|News"); ("Country X - NEWS", "c7|NEWS")];
                     total_channels := 2; warnings := [] |}) ∧
  create_options_yml on_ascii (Doc countries_json) (Doc tied_channels_swapped)
  = Returns (Some {| channel_options :=
                       [("Country X - NEWS", "c7|NEWS"); ("Country X - News", "c1|News")];
                     total_channels := 2; warnings := [] |}) ∧
  create_options_yml on_ascii (Doc countries_json) (Doc tied_channels)
  ≠ create_options_yml on_ascii (Doc countries_json) (Doc tied_channels_swapped).
Proof.
  split_and!; [|reflexivity|reflexivity|discriminate].
  exists tied_channels. split; [done|].
  apply Forall2_cons_2; [|constructor]. split; [done|]. apply Permutation_swap.
Qed.

End OptionsProofs.

(** ** [generate-channels.py]: the runs as a whole *)

Module ChannelsExtras.
Import Py PyFacts GenerateChannels ChannelsRuns ChannelsProofs.

(** *** The countries cache, written and read back *)

Lemma fetch_countries_success (E : env) (w : world) (countries : list country) :
  api_countries E (requests w) = Payload countries →
  let data := {| cache_data := countries;
                 cache_timestamp :=
                   Some (isoformat E (clock E (clock_reads w)) +:+ "Z") |} in
  fetch_countries E w
  = (Returns (Some countries),
     set_countries_file (Doc data) (tick (log_request Countries w))).
Proof. intros Hok. unfold fetch_countries. run. by rewrite Hok. Qed.

(** X1.  What a successful [fetch_countries] writes, [load_countries]
    reads back: when the parser reads the written timestamp back as the
    clock reading it was printed from, and the clock has not advanced by
    more than [COUNTRIES_MAX_AGE_DAYS] at the next reading, the next
    [load_countries] returns the fetched countries and sends no request. *)
Theorem fetched_countries_are_served_from_the_cache (E : env) (w : world)
    (countries : list country) :
  api_countries E (requests w) = Payload countries →
  reads_back E (clock E (clock_reads w)) →
  clock E (S (clock_reads w)) - clock E (clock_reads w)
    ≤ timedelta_days COUNTRIES_MAX_AGE_DAYS →
  ∃ w1 w2,
    fetch_countries E w = (Returns (Some countries), w1) ∧
    requests w1 = requests w ++ [Countries] ∧
    load_countries E w1 = (Returns (Some countries), w2) ∧
    requests w2 = requests w1 ∧
    countries_file w2 = countries_file w1.
Proof.
  intros Hok Hback Hage.
  rewrite (fetch_countries_success _ _ _ Hok).
  eexists _, _. split; [done|]. split; [done|].
  unfold load_countries. simpl. rewrite run_bind.
  rewrite (is_data_stale_naive _ _ _ _ _ Hback). simpl.
  rewrite bool_decide_eq_false_2 by lia. simpl. done.
Qed.


(** *** The loop: what it requests, what it keeps *)

(** One turn of the loop, by what the API answers. *)
Lemma fetch_loop_step (E : env) id name ts rest channels_data (w : world) :
  fetch_loop E ((id, name, ts) :: rest) channels_data w
  = match api_channels E (requests w) id with
    | Payload channels =>
        let stored := <[id := fetched_entry E w channels]> channels_data in
        fetch_loop E rest stored
          (set_channels_file (Doc stored) (tick (log_request (ChannelsOfCountry id) w)))
    | RequestException text =>
        if is_rate_limit text
        then (Returns (Break, channels_data), log_request (ChannelsOfCountry id) w)
        else fetch_loop E rest channels_data (log_request (ChannelsOfCountry id) w)
    end.
Proof.
  simpl. rewrite run_bind.
  destruct (api_channels E (requests w) id) as [channels|text] eqn:Hapi.
  - by rewrite (fetch_channels_success _ _ _ _ _ _ Hapi).
  - rewrite (fetch_channels_failure _ _ _ _ _ _ Hapi).
    by destruct (is_rate_limit text).
Qed.

(** X2.  The loop sends one request per country, in the order of the work
    list, up to the point where it stops: the requests it adds are those
    for the first [n] countries of the list, all of them when it runs to
    the end, and it sends no request for the countries list and does not
    touch [countries.json]. *)
Theorem fetch_loop_requests_a_prefix (E : env) (todo : list work_item)
    (channels_data channels_data' : gmap string channels_entry)
    (w w' : world) (exit : loop_exit) :
  fetch_loop E todo channels_data w = (Returns (exit, channels_data'), w') →
  ∃ n, (n ≤ length todo)%nat ∧
    requests w' = requests w ++ (ChannelsOfCountry <$> take n (ids todo)) ∧
    (exit = Exhausted → n = length todo) ∧
    (exit = Break → (0 < n)%nat) ∧
    countries_file w' = countries_file w.
Proof.
  revert channels_data w. induction todo as [|[[id name] ts] todo IH]; intros cd w.
  - simpl. rewrite run_ret. intros [= <- _ <-]. exists 0%nat.
    by rewrite app_nil_r.
  - rewrite fetch_loop_step.
    destruct (api_channels E (requests w) id) as [channels|text].
    + intros (n & Hn & Hreq & Hex & Hbr & Hfile)%IH. exists (S n).
      simpl in *. rewrite Hreq, <-app_assoc. split_and!; try done; [lia|naive_solver lia|lia].
    + destruct (is_rate_limit text).
      * intros [= <- _ <-]. exists 1%nat. simpl.
        split_and!; try done; lia.
      * intros (n & Hn & Hreq & Hex & Hbr & Hfile)%IH. exists (S n).
        simpl in *. rewrite Hreq, <-app_assoc.
        split_and!; try done; [lia|naive_solver lia|lia].
Qed.

(** X3.  The file on the disk follows the dictionary in memory: when the
    two agree as the loop begins, as they do after [load_channels_data],
    they agree when it ends, however it ends. *)
Theorem fetch_loop_keeps_disk_in_sync (E : env) (todo : list work_item)
    (channels_data channels_data' : gmap string channels_entry)
    (w0 w w' : world) (exit : loop_exit) :
  load_channels_data w0 = (Returns channels_data, w) →
  fetch_loop E todo channels_data w = (Returns (exit, channels_data'), w') →
  in_sync w channels_data ∧ in_sync w' channels_data'.
Proof.
  intros Hload Hloop.
  assert (in_sync w channels_data) as Hsync.
  { unfold load_channels_data, in_sync in *.
    destruct (channels_file w0) eqn:Hfile; [| |]; simplify_eq; [by right|by left]. }
  split; [done|]. clear Hload.
  revert channels_data w Hsync Hloop.
  induction todo as [|[[id name] ts] todo IH]; intros cd w Hsync.
  - simpl. rewrite run_ret. by intros [= _ <- <-].
  - rewrite fetch_loop_step.
    destruct (api_channels E (requests w) id) as [channels|text].
    + apply IH. by left.
    + destruct (is_rate_limit text).
      * by intros [= _ <- <-].
      * by apply IH.
Qed.

Lemma fetch_loop_keeps_keys (E : env) (todo : list work_item)
    (channels_data channels_data' : gmap string channels_entry)
    (w w' : world) (exit : loop_exit) (k : string) :
  fetch_loop E todo channels_data w = (Returns (exit, channels_data'), w') →
  is_Some (channels_data !! k) → is_Some (channels_data' !! k).
Proof.
  revert channels_data w. induction todo as [|[[id name] ts] todo IH]; intros cd w.
  - simpl. rewrite run_ret. by intros [= _ <- _].
  - rewrite fetch_loop_step.
    destruct (api_channels E (requests w) id) as [channels|text].
    + intros Hrun Hk. apply (IH _ _ Hrun).
      destruct (decide (id = k)) as [->|].
      * rewrite lookup_insert_eq. by eexists.
      * by rewrite lookup_insert_ne.
    + destruct (is_rate_limit text); [by intros [= _ <- _]|apply IH].
Qed.

(** The loop only adds to the request log and only advances the clock. *)
Lemma fetch_loop_grows (E : env) (todo : list work_item)
    (channels_data channels_data' : gmap string channels_entry)
    (w w' : world) (exit : loop_exit) :
  fetch_loop E todo channels_data w = (Returns (exit, channels_data'), w') →
  requests w `prefix_of` requests w' ∧ (clock_reads w ≤ clock_reads w')%nat.
Proof.
  revert channels_data w. induction todo as [|[[id name] ts] todo IH]; intros cd w.
  - simpl. rewrite run_ret. by intros [= _ _ <-].
  - rewrite fetch_loop_step.
    destruct (api_channels E (requests w) id) as [channels|text].
    + intros [Hreq Hclock]%IH. simpl in *. split; [|lia].
      by apply prefix_app_l in Hreq.
    + destruct (is_rate_limit text).
      * intros [= _ _ <-]. simpl. split; [by apply prefix_app_r|done].
      * intros [Hreq Hclock]%IH. simpl in *. split; [|done].
        by apply prefix_app_l in Hreq.
Qed.

(** What was fetched in a part of a run was fetched in the run. *)
Lemma fetched_between_earlier (E : env) (w w1 w' : world) (id : string)
    (e : channels_entry) :
  requests w `prefix_of` requests w1 → (clock_reads w ≤ clock_reads w1)%nat →
  fetched_between E w1 w' id e → fetched_between E w w' id e.
Proof.
  intros Hreq Hclock (log & channels & n & Hlog & Hsent & Hapi & Hn & ->).
  exists log, channels, n. split_and!; [by etrans|done|done|lia|lia|done].
Qed.

(** The entry a turn of the loop stores was fetched in that turn. *)
Lemma fetched_in_this_turn (E : env) (w w1 w' : world) (id : string)
    (channels : channel_list) :
  api_channels E (requests w) id = Payload channels →
  requests w1 = requests w ++ [ChannelsOfCountry id] →
  clock_reads w1 = S (clock_reads w) →
  requests w1 `prefix_of` requests w' → (clock_reads w1 ≤ clock_reads w')%nat →
  fetched_between E w w' id (fetched_entry E w channels).
Proof.
  intros Hapi Hreq Hclock Hlater Hclock'.
  exists (requests w), channels, (clock_reads w).
  split_and!; [done|by rewrite <-Hreq|done|lia|lia|done].
Qed.

(** X4.  The loop never drops an entry, and every entry of the dictionary
    it ends with is either the entry it began with or one this run
    fetched for a country of the work list: the entry holds what the API
    answered to a request of this run for that country, and its timestamp
    is a reading of the clock taken during the run, printed with a ["Z"]. *)
Theorem fetch_loop_only_adds_stamped_entries (E : env) (todo : list work_item)
    (channels_data channels_data' : gmap string channels_entry)
    (w w' : world) (exit : loop_exit) :
  fetch_loop E todo channels_data w = (Returns (exit, channels_data'), w') →
  (∀ k, is_Some (channels_data !! k) → is_Some (channels_data' !! k)) ∧
  (∀ k e, channels_data' !! k = Some e →
     channels_data !! k = Some e ∨
     (k ∈ ids todo ∧ fetched_between E w w' k e)).
Proof.
  intros Hrun. split; [intros k; by apply (fetch_loop_keeps_keys _ _ _ _ _ _ _ _ Hrun)|].
  revert channels_data w Hrun.
  induction todo as [|[[id name] ts] todo IH]; intros cd w.
  - simpl. rewrite run_ret. intros [= _ <- _]. by left.
  - rewrite fetch_loop_step.
    destruct (api_channels E (requests w) id) as [channels|text] eqn:Hapi.
    + intros Hrun k e Hk.
      destruct (fetch_loop_grows _ _ _ _ _ _ _ Hrun) as [Hreq Hclock].
      destruct (IH _ _ Hrun k e Hk) as [Hold|[Hin Hfetched]].
      * destruct (decide (id = k)) as [->|].
        -- rewrite lookup_insert_eq in Hold. injection Hold as <-.
           right. split; [by left|].
           eapply fetched_in_this_turn;
             [exact Hapi| | |exact Hreq|exact Hclock]; reflexivity.
        -- rewrite lookup_insert_ne in Hold by done. by left.
      * right. split; [by right|].
        eapply fetched_between_earlier; [| |done]; simpl; [by apply prefix_app_r|lia].
    + destruct (is_rate_limit text).
      * intros [= _ <- _]. by left.
      * intros Hrun k e Hk. destruct (IH _ _ Hrun k e Hk) as [Hold|[Hin Hfetched]];
          [by left|].
        right. split; [by right|].
        eapply fetched_between_earlier; [| |done]; simpl; [by apply prefix_app_r|lia].
Qed.

(** X5.  Against an API that never answers with what reads as a rate
    limit, the loop runs to the end and requests every country of the work
    list; against an API that answers every request, every country of the
    list has an entry afterwards. *)
Theorem fetch_loop_without_rate_limit (E : env) (todo : list work_item)
    (channels_data : gmap string channels_entry) (w : world) :
  never_rate_limited E →
  ∃ channels_data' w',
    fetch_loop E todo channels_data w = (Returns (Exhausted, channels_data'), w') ∧
    requests w' = requests w ++ (ChannelsOfCountry <$> ids todo) ∧
    (always_answers E → ∀ id, id ∈ ids todo → is_Some (channels_data' !! id)).
Proof.
  intros Hnever. revert channels_data w.
  induction todo as [|[[id name] ts] todo IH]; intros cd w.
  - eexists _, _. split; [done|]. simpl. rewrite app_nil_r. split; [done|].
    intros _ id Hin. by apply elem_of_nil in Hin.
  - rewrite fetch_loop_step.
    destruct (api_channels E (requests w) id) as [channels|text] eqn:Hapi.
    + destruct (IH (<[id := fetched_entry E w channels]> cd)
                  (set_channels_file (Doc (<[id := fetched_entry E w channels]> cd))
                     (tick (log_request (ChannelsOfCountry id) w))))
        as (cd' & w' & Hrun & Hreq & Hall).
      exists cd', w'. split; [done|]. split.
      * rewrite Hreq. simpl. by rewrite <-app_assoc.
      * intros Hanswers k [->|Hin]%elem_of_cons; [|by apply Hall].
        apply (fetch_loop_keeps_keys _ _ _ _ _ _ _ _ Hrun).
        rewrite lookup_insert_eq. by eexists.
    + rewrite (Hnever _ _ _ Hapi).
      destruct (IH cd (log_request (ChannelsOfCountry id) w))
        as (cd' & w' & Hrun & Hreq & Hall).
      exists cd', w'. split; [done|]. split.
      * rewrite Hreq. simpl. by rewrite <-app_assoc.
      * intros Hanswers. destruct (Hanswers (requests w) id) as [? ?]. congruence.
Qed.

(** *** The order of the fetches: ties *)

Lemma categorize_new (channels_data : gmap string channels_entry) (countries : list country) :
  filter (λ x : work_item, x.2 = None) (categorize channels_data countries)
  = (λ c, (country_id c, country_name c, None))
      <$> filter (λ c, channels_data !! country_id c = None) countries.
Proof.
  induction countries as [|c countries IH]; [done|].
  unfold categorize in *. simpl. rewrite !filter_cons, IH.
  by destruct (channels_data !! country_id c) eqn:Hc.
Qed.

(** X6.  The sort is stable, so ties are fetched in the order of the
    countries list: the countries without an entry come out in the order
    the list has them, and so do countries whose sort keys are equal. *)
Theorem fetch_order_keeps_list_order_among_ties
    (channels_data : gmap string channels_entry) (countries : list country) :
  filter (λ x : work_item, x.2 = None) (fetch_order channels_data countries)
  = (λ c, (country_id c, country_name c, None))
      <$> filter (λ c, channels_data !! country_id c = None) countries ∧
  (∀ k, filter (λ x, sort_key x = k) (fetch_order channels_data countries)
        = filter (λ x, sort_key x = k) (categorize channels_data countries)).
Proof.
  assert (∀ k, filter (λ x, sort_key x = k) (fetch_order channels_data countries)
               = filter (λ x, sort_key x = k) (categorize channels_data countries))
    as Hstable by (intros k; apply sort_by_stable, _).
  split; [|done]. rewrite <-categorize_new.
  rewrite (list_filter_iff (λ x : work_item, x.2 = None) (λ x, sort_key x = (false, ""))).
  - rewrite Hstable. symmetry. apply list_filter_iff.
    intros [[? ?] [t|]]; unfold sort_key; simpl; naive_solver.
  - intros [[? ?] [t|]]; unfold sort_key; simpl; naive_solver.
Qed.

(** *** [load_countries] and [main] at the edges *)

Lemma fetch_countries_effects (E : env) (w w' : world)
    (r : result (option (list country))) :
  fetch_countries E w = (r, w') →
  channels_file w' = channels_file w ∧
  requests w' = requests w ++ [Countries] ∧
  (clock_reads w' ≤ clock_reads w + 1)%nat ∧
  (countries_file w' = countries_file w ∨
   ∃ countries timestamp,
     api_countries E (requests w) = Payload countries ∧
     countries_file w'
     = Doc {| cache_data := countries; cache_timestamp := Some timestamp |}).
Proof.
  unfold fetch_countries. run.
  destruct (api_countries E (requests w)) as [countries|text] eqn:Hapi;
    intros [= _ <-]; simpl; split_and!; try done; try lia.
  - right. by eexists _, _.
  - by left.
Qed.

Lemma load_countries_keeps_channels_file (E : env) (w w' : world)
    (r : result (option (list country))) :
  load_countries E w = (r, w') → channels_file w' = channels_file w.
Proof.
  unfold load_countries. destruct (countries_file w) as [| |data].
  - by intros (? & _)%fetch_countries_effects.
  - by intros [= _ <-].
  - rewrite run_bind. unfold is_data_stale.
    destruct (fromisoformat E _) as [[t [offset|]]|]; run.
    + by intros [= _ <-].
    + destruct (_ >? _); simpl.
      * by intros (? & _)%fetch_countries_effects.
      * by intros [= _ <-].
    + by intros (? & _)%fetch_countries_effects.
Qed.

(** X7.  Whatever the cache holds and however the call ends,
    [load_countries] sends at most one request, which is for the
    countries, reads the clock at most twice, leaves [channels.json]
    alone and rewrites [countries.json] only with the list a request of
    this call was answered with. *)
Theorem load_countries_frame (E : env) (w w' : world)
    (r : result (option (list country))) :
  load_countries E w = (r, w') →
  (requests w' = requests w ∨ requests w' = requests w ++ [Countries]) ∧
  (clock_reads w' ≤ clock_reads w + 2)%nat ∧
  channels_file w' = channels_file w ∧
  (countries_file w' = countries_file w ∨
   ∃ countries timestamp,
     requests w' = requests w ++ [Countries] ∧
     api_countries E (requests w) = Payload countries ∧
     countries_file w'
     = Doc {| cache_data := countries; cache_timestamp := Some timestamp |}).
Proof.
  intros Hrun.
  pose proof (load_countries_keeps_channels_file _ _ _ _ Hrun) as Hchannels.
  cut ((requests w' = requests w ∨ requests w' = requests w ++ [Countries]) ∧
       (clock_reads w' ≤ clock_reads w + 2)%nat ∧
       (countries_file w' = countries_file w ∨
        ∃ countries timestamp,
          requests w' = requests w ++ [Countries] ∧
          api_countries E (requests w) = Payload countries ∧
          countries_file w'
          = Doc {| cache_data := countries; cache_timestamp := Some timestamp |})).
  { intros (? & ? & ?). by split_and!. }
  clear Hchannels. revert Hrun.
  assert (∀ f w0, requests w0 = requests w → countries_file w0 = f →
            (clock_reads w0 ≤ clock_reads w + 1)%nat →
            fetch_countries E w0 = (r, w') →
            (requests w' = requests w ∨ requests w' = requests w ++ [Countries]) ∧
            (clock_reads w' ≤ clock_reads w + 2)%nat ∧
            (countries_file w' = f ∨
             ∃ countries timestamp,
               requests w' = requests w ++ [Countries] ∧
               api_countries E (requests w) = Payload countries ∧
               countries_file w'
               = Doc {| cache_data := countries; cache_timestamp := Some timestamp |}))
    as Hfetch.
  { intros f w0 Hreq Hfile Hclock (_ & Hreq' & Hclock' & Hfile')%fetch_countries_effects.
    rewrite Hreq in Hreq', Hfile'. rewrite Hfile in Hfile'.
    split_and!; [by right|lia|].
    destruct Hfile' as [?|(cs & ts & ? & ?)]; [by left|right; by eexists _, _]. }
  unfold load_countries. destruct (countries_file w) as [| |data] eqn:Hfile.
  - apply Hfetch; [done|done|lia].
  - intros [= _ <-]. split_and!; [by left|lia|by left].
  - rewrite run_bind. unfold is_data_stale.
    destruct (fromisoformat E _) as [[t [offset|]]|]; run.
    + intros [= _ <-]. simpl. split_and!; [by left|lia|by left].
    + destruct (_ >? _); simpl.
      * apply Hfetch; simpl; [done|done|lia].
      * intros [= _ <-]. simpl. split_and!; [by left|lia|by left].
    + apply Hfetch; [done|done|lia].
Qed.

Lemma load_countries_refreshing (E : env) (w : world) :
  cache_to_refresh E w →
  load_countries E w = fetch_countries E w ∨
  load_countries E w = fetch_countries E (tick w).
Proof.
  intros [Hfile | (data & Hfile & [Hparse | (t & Hparse & Hage)])];
    unfold load_countries; rewrite Hfile.
  - by left.
  - left. by rewrite run_bind, (is_data_stale_unparseable _ _ _ _ Hparse).
  - right. rewrite run_bind, (is_data_stale_naive _ _ _ _ _ Hparse).
    by rewrite bool_decide_eq_true_2 by lia.
Qed.

(** X8.  A stale cache is no fallback.  When the countries are to be
    refreshed and the request fails, [main] ends at once and normally,
    although the file may hold a list of countries: it sends no request
    for channels and leaves both cache files as they are. *)
Theorem main_gives_up_when_the_refresh_fails (E : env) (w : world) (text : string) :
  cache_to_refresh E w →
  api_countries E (requests w) = RequestException text →
  ∃ w', main E w = (Returns (), w') ∧
    requests w' = requests w ++ [Countries] ∧
    countries_file w' = countries_file w ∧
    channels_file w' = channels_file w.
Proof.
  intros Hrefresh Hfail. unfold main. rewrite run_bind.
  destruct (load_countries_refreshing E w Hrefresh) as [-> | ->];
    unfold fetch_countries; run; rewrite Hfail; by eexists.
Qed.

(** X9.  A truncated [channels.json] stops every later run: once the
    countries are loaded and there is one at least, [main] raises the
    decoder's error at the point where it loads the keyed cache, before
    the loop, and the file stays as it is. *)
Theorem main_stops_on_a_truncated_channels_file (E : env) (w w1 : world)
    (c : country) (countries : list country) :
  channels_file w = Torn →
  load_countries E w = (Returns (Some (c :: countries)), w1) →
  main E w = (Raises JSONDecodeError, w1) ∧ channels_file w1 = Torn.
Proof.
  intros Htorn Hload.
  pose proof (load_countries_keeps_channels_file _ _ _ _ Hload) as Hfile.
  rewrite Htorn in Hfile. split; [|done].
  unfold main. rewrite run_bind, Hload. rewrite run_bind.
  unfold load_channels_data. by rewrite Hfile.
Qed.


(** *** Text: the letter Z, and what reads as a rate limit *)

Lemma replace_Z_app (a b : string) :
  replace_Z (a +:+ b) = replace_Z a +:+ replace_Z b.
Proof.
  induction a as [|c a IH]; [done|]. simpl.
  destruct (Ascii.eqb c "Z"); simpl; by rewrite IH.
Qed.

(** X10.  Every letter Z is dropped before the timestamp is parsed,
    wherever it stands: a timestamp with a Z inside is judged exactly as
    the same text without it. *)
Theorem is_data_stale_ignores_every_Z (E : env) (a b : string) (days : Z) (w : world) :
  is_data_stale E (a +:+ "Z" +:+ b) days w = is_data_stale E (a +:+ b) days w.
Proof. unfold is_data_stale. by rewrite !replace_Z_app. Qed.

Lemma prefix_app (n b : string) : String.prefix n (n +:+ b) = true.
Proof.
  induction n as [|c n IH]; simpl; [by destruct b; simpl|].
  by destruct (ascii_dec c c).
Qed.

Lemma prefix_split (n h : string) :
  String.prefix n h = true → ∃ b, h = n +:+ b.
Proof.
  revert h. induction n as [|c n IH]; intros h; simpl.
  - intros _. by exists h.
  - destruct h as [|d h]; simpl; [done|].
    destruct (ascii_dec c d) as [->|]; [|done].
    intros [b ->]%IH. by exists b.
Qed.

Lemma contains_spec (n h : string) :
  contains n h = true ↔ ∃ a b, h = a +:+ n +:+ b.
Proof.
  split.
  - induction h as [|c h IH]; cbn [contains].
    + rewrite orb_false_r. intros [b Hb]%prefix_split. by exists "", b.
    + intros [[b Hb]%prefix_split | (a & b & ->)%IH]%orb_true_iff.
      * by exists "", b.
      * by exists (String c a), b.
  - intros (a & b & ->). induction a as [|c a IH].
    + change ("" +:+ n +:+ b) with (n +:+ b).
      destruct (n +:+ b) eqn:Hnb; cbn [contains]; rewrite <-Hnb, prefix_app; done.
    + change (String c a +:+ n +:+ b) with (String c (a +:+ n +:+ b)).
      cbn [contains]. by rewrite IH, orb_true_r.
Qed.

Lemma lower_app (a b : string) : lower (a +:+ b) = lower a +:+ lower b.
Proof. induction a as [|c a IH]; [done|]. simpl. by rewrite IH. Qed.

Lemma lower_app_inv (t u v : string) :
  lower t = u +:+ v → ∃ a b, t = a +:+ b ∧ lower a = u ∧ lower b = v.
Proof.
  revert t. induction u as [|c u IH]; intros t; simpl.
  - intros Hv. by exists "", t.
  - destruct t as [|d t]; [done|]. simpl. intros [= <- (a & b & -> & <- & <-)%IH].
    by exists (String d a), b.
Qed.

(** X11.  A failure reads as a rate limit exactly when its text holds
    the digits 429 somewhere, or the words "rate limit" in any mix of
    cases; the loop then stops at this country without a change to the
    dictionary, whatever the failure was. *)
Theorem rate_limit_is_a_matter_of_text (E : env) (text : string) :
  (is_rate_limit text = true ↔ mentions_rate_limit text) ∧
  (∀ id name ts rest channels_data w,
     api_channels E (requests w) id = RequestException text →
     mentions_rate_limit text →
     fetch_loop E ((id, name, ts) :: rest) channels_data w
     = (Returns (Break, channels_data), log_request (ChannelsOfCountry id) w)).
Proof.
  assert (is_rate_limit text = true ↔ mentions_rate_limit text) as Hiff.
  { unfold is_rate_limit, mentions_rate_limit.
    rewrite orb_true_iff, !contains_spec. split.
    - intros [?|(u & v & Hlow)]; [by left|right].
      apply lower_app_inv in Hlow as (a & xb & -> & <- & Hxb).
      apply lower_app_inv in Hxb as (x & b & -> & Hx & <-).
      by exists a, x, b.
    - intros [?|(a & x & b & -> & Hx)]; [by left|right].
      exists (lower a), (lower b). by rewrite !lower_app, Hx. }
  split; [done|].
  intros id name ts rest cd w Hfail Hmentions%Hiff.
  by rewrite fetch_loop_step, Hfail, Hmentions.
Qed.
(** *** A run against an API that answers *)

Lemma ids_fetch_order (channels_data : gmap string channels_entry)
    (countries : list country) :
  ids (fetch_order channels_data countries) ≡ₚ country_id <$> countries.
Proof.
  unfold ids, fetch_order. rewrite (sort_by_perm pair_lt sort_key).
  unfold categorize. induction countries as [|c countries IH]; [done|].
  simpl. rewrite <-IH. by destruct (channels_data !! country_id c).
Qed.

Lemma fetch_loop_answered (E : env) (todo : list work_item)
    (channels_data : gmap string channels_entry) (w : world) :
  always_answers E →
  ∃ channels_data' w',
    fetch_loop E todo channels_data w = (Returns (Exhausted, channels_data'), w') ∧
    requests w' = requests w ++ (ChannelsOfCountry <$> ids todo) ∧
    (clock_reads w ≤ clock_reads w')%nat ∧
    countries_file w' = countries_file w ∧
    (todo ≠ [] ∨ channels_file w = Doc channels_data →
     channels_file w' = Doc channels_data') ∧
    (∀ id, id ∈ ids todo →
       ∃ e, channels_data' !! id = Some e ∧ fetched_between E w w' id e) ∧
    (∀ k, k ∉ ids todo → channels_data' !! k = channels_data !! k).
Proof.
  intros Hanswers. revert channels_data w.
  induction todo as [|[[id name] ts] todo IH]; intros cd w.
  - exists cd, w. simpl. rewrite app_nil_r. split_and!; try done.
    + by intros [?|?].
    + by intros id ?%elem_of_nil.
  - rewrite fetch_loop_step.
    destruct (Hanswers (requests w) id) as [channels Hapi]. rewrite Hapi.
    set (w1 := set_channels_file (Doc (<[id := fetched_entry E w channels]> cd))
                 (tick (log_request (ChannelsOfCountry id) w))).
    destruct (IH (<[id := fetched_entry E w channels]> cd) w1)
      as (cd' & w' & Hrun & Hreq & Hclock & Hcountries & Hfile & Hnew & Hold).
    assert (requests w1 = requests w ++ [ChannelsOfCountry id]) as Hw1 by done.
    assert (clock_reads w1 = S (clock_reads w)) as Hc1 by done.
    exists cd', w'. split_and!.
    + done.
    + rewrite Hreq, Hw1. simpl. by rewrite <-app_assoc.
    + lia.
    + by rewrite Hcountries.
    + intros _. apply Hfile. by right.
    + intros k Hk. destruct (decide (k ∈ ids todo)) as [Hin|Hout].
      * destruct (Hnew k Hin) as (e & He & Hfetched). exists e. split; [done|].
        eapply fetched_between_earlier; [| |done];
          [rewrite Hw1; by apply prefix_app_r|lia].
      * apply elem_of_cons in Hk as [->|Hk]; [|done].
        exists (fetched_entry E w channels). split.
        -- by rewrite (Hold _ Hout), lookup_insert_eq.
        -- apply (fetched_in_this_turn E w w1 w' id channels Hapi Hw1 Hc1); [|done].
           rewrite Hreq. by apply prefix_app_r.
    + intros k Hk. apply not_elem_of_cons in Hk as [Hne Hout].
      by rewrite (Hold _ Hout), lookup_insert_ne.
Qed.

(** X23.  A run against an API that answers completes the cache.  When
    the countries are loaded, there is one at least, [channels.json] is
    missing or holds a document and every request for channels is
    answered, [main] ends normally after one request per country;
    [channels.json] then holds, for every country, an entry this run
    fetched (what the API answered to a request of this run, stamped with
    a reading of the clock taken during the run), and still holds,
    unchanged, every entry it held under the id of no country. *)
Theorem main_completes_the_cache (E : env) (w w1 : world) (countries : list country) :
  always_answers E →
  load_countries E w = (Returns (Some countries), w1) →
  countries ≠ [] →
  channels_file w ≠ Torn →
  ∃ w' order channels_data',
    main E w = (Returns (), w') ∧
    order ≡ₚ country_id <$> countries ∧
    requests w' = requests w1 ++ (ChannelsOfCountry <$> order) ∧
    countries_file w' = countries_file w1 ∧
    channels_file w' = Doc channels_data' ∧
    (∀ c, c ∈ countries →
       ∃ e, channels_data' !! country_id c = Some e ∧
            fetched_between E w1 w' (country_id c) e) ∧
    (∀ k e, holds (channels_file w) k e → k ∉ country_id <$> countries →
       channels_data' !! k = Some e).
Proof.
  intros Hanswers Hload Hne Hfile.
  pose proof (load_countries_keeps_channels_file _ _ _ _ Hload) as Hsame.
  assert (∃ cd, load_channels_data w1 = (Returns cd, w1) ∧
                ∀ k e, holds (channels_file w) k e → cd !! k = Some e)
    as (cd & Hcd & Hloaded).
  { unfold load_channels_data, holds. rewrite Hsame.
    destruct (channels_file w) as [| |doc]; [|done|].
    - exists ∅. split; [done|]. by intros k e (m & ? & _).
    - exists doc. split; [done|]. by intros k e (m & [= <-] & ?). }
  destruct (fetch_loop_answered E (fetch_order cd countries) cd w1 Hanswers)
    as (cd' & w' & Hrun & Hreq & _ & Hcountries & Hdoc & Hnew & Hold).
  pose proof (ids_fetch_order cd countries) as Hperm.
  exists w', (ids (fetch_order cd countries)), cd'. split_and!; try done.
  - unfold main. rewrite run_bind, Hload.
    destruct countries as [|c countries]; [done|].
    rewrite run_bind, Hcd, run_bind, Hrun. apply run_ret.
  - apply Hdoc. left. intros Hnil.
    apply Hne, (fmap_nil_inv country_id), Permutation_nil_r.
    by rewrite <-Hperm, Hnil.
  - intros c Hc. apply Hnew. rewrite Hperm. by apply list_elem_of_fmap_2.
  - intros k e Hk Hout. rewrite Hold; [by apply Hloaded|]. by rewrite Hperm.
Qed.

(** *** The properties at work on the example runs *)

Import ChannelsScenario RunsScenario.

Lemma fetched_countries_are_served_from_the_cache_witness :
  ∃ w1 w2,
    fetch_countries rate_limited empty_disk
    = (Returns (Some [austria; belgium; croatia]), w1) ∧
    requests w1 = requests empty_disk ++ [Countries] ∧
    load_countries rate_limited w1 = (Returns (Some [austria; belgium; croatia]), w2) ∧
    requests w2 = requests w1 ∧
    countries_file w2 = countries_file w1.
Proof.
  apply (fetched_countries_are_served_from_the_cache rate_limited empty_disk
           [austria; belgium; croatia]).
  - reflexivity.
  - vm_compute. reflexivity.
  - vm_compute. discriminate.
Defined.

Lemma fetch_loop_requests_a_prefix_witness :
  ∃ n, (n ≤ length austria_first)%nat ∧
    requests halted
    = requests empty_disk ++ (ChannelsOfCountry <$> take n (ids austria_first)) ∧
    (Break = Exhausted → n = length austria_first) ∧
    (Break = Break → (0 < n)%nat) ∧
    countries_file halted = countries_file empty_disk.
Proof.
  apply (fetch_loop_requests_a_prefix rate_limited austria_first ∅ austria_only
           empty_disk halted Break).
  vm_compute. reflexivity.
Defined.

Lemma fetch_loop_keeps_disk_in_sync_witness :
  in_sync empty_disk ∅ ∧ in_sync halted austria_only.
Proof.
  apply (fetch_loop_keeps_disk_in_sync rate_limited austria_first ∅ austria_only
           empty_disk empty_disk halted Break).
  - reflexivity.
  - vm_compute. reflexivity.
Defined.

Lemma fetch_loop_only_adds_stamped_entries_witness :
  (∀ k, is_Some ((∅ : gmap string channels_entry) !! k) → is_Some (austria_only !! k)) ∧
  (∀ k e, austria_only !! k = Some e →
     (∅ : gmap string channels_entry) !! k = Some e ∨
     (k ∈ ids austria_first ∧ fetched_between rate_limited empty_disk halted k e)).
Proof.
  apply (fetch_loop_only_adds_stamped_entries rate_limited austria_first ∅ austria_only
           empty_disk halted Break).
  vm_compute. reflexivity.
Defined.

Lemma fetch_loop_without_rate_limit_witness :
  ∃ channels_data' w',
    fetch_loop generous austria_first ∅ empty_disk
    = (Returns (Exhausted, channels_data'), w') ∧
    requests w' = requests empty_disk ++ (ChannelsOfCountry <$> ids austria_first) ∧
    (always_answers generous →
     ∀ id, id ∈ ids austria_first → is_Some (channels_data' !! id)).
Proof.
  apply (fetch_loop_without_rate_limit generous austria_first ∅ empty_disk).
  intros log id text H. discriminate H.
Defined.

Lemma load_countries_frame_witness :
  let w := disk (Doc week_old_cache) Missing in
  let w' := (load_countries rate_limited w).2 in
  (requests w' = requests w ∨ requests w' = requests w ++ [Countries]) ∧
  (clock_reads w' ≤ clock_reads w + 2)%nat ∧
  channels_file w' = channels_file w ∧
  (countries_file w' = countries_file w ∨
   ∃ countries timestamp,
     requests w' = requests w ++ [Countries] ∧
     api_countries rate_limited (requests w) = Payload countries ∧
     countries_file w'
     = Doc {| cache_data := countries; cache_timestamp := Some timestamp |}).
Proof.
  intros w w'.
  apply (load_countries_frame rate_limited w w' (load_countries rate_limited w).1).
  vm_compute. reflexivity.
Defined.

Lemma main_gives_up_when_the_refresh_fails_witness :
  let w := disk (Doc week_old_cache) (Doc keyed_cache) in
  ∃ w', main unreachable w = (Returns (), w') ∧
    requests w' = requests w ++ [Countries] ∧
    countries_file w' = countries_file w ∧
    channels_file w' = channels_file w.
Proof.
  intros w.
  apply (main_gives_up_when_the_refresh_fails unreachable w
           "HTTPSConnectionPool(host='tv-plan.org', port=443): Max retries exceeded").
  - right. exists week_old_cache. split; [reflexivity|].
    right. exists 63928699199000000. split; vm_compute; reflexivity.
  - reflexivity.
Defined.

Lemma main_stops_on_a_truncated_channels_file_witness :
  let w := disk (Doc fresh_cache) Torn in
  main rate_limited w = (Raises JSONDecodeError, tick w) ∧
  channels_file (tick w) = Torn.
Proof.
  intros w.
  apply (main_stops_on_a_truncated_channels_file rate_limited w (tick w)
           austria [belgium]).
  - reflexivity.
  - vm_compute. reflexivity.
Defined.

Lemma rate_limit_is_a_matter_of_text_witness :
  let text := "500 Server Error: Internal Server Error for url: " +:+ url "1429" in
  is_rate_limit text = true ∧
  fetch_loop broken [("1429", "Elbonia", None); ("2", "Belgium", None)] ∅ empty_disk
  = (Returns (Break, ∅), log_request (ChannelsOfCountry "1429") empty_disk).
Proof.
  intros text.
  assert (Hm : mentions_rate_limit text).
  { left.
    exists ("500 Server Error: Internal Server Error for url: " +:+ url "1"), "".
    reflexivity. }
  destruct (rate_limit_is_a_matter_of_text broken text) as [Hiff Hloop].
  split.
  - apply Hiff, Hm.
  - apply (Hloop "1429" "Elbonia" None [("2", "Belgium", None)] ∅ empty_disk);
      [reflexivity | exact Hm].
Defined.

Lemma main_completes_the_cache_witness :
  let w := disk (Doc fresh_cache) (Doc keyed_cache) in
  let countries := [austria; belgium] in
  ∃ w' order channels_data',
    main generous w = (Returns (), w') ∧
    order ≡ₚ country_id <$> countries ∧
    requests w' = requests (tick w) ++ (ChannelsOfCountry <$> order) ∧
    countries_file w' = countries_file (tick w) ∧
    channels_file w' = Doc channels_data' ∧
    (∀ c, c ∈ countries →
       ∃ e, channels_data' !! country_id c = Some e ∧
            fetched_between generous (tick w) w' (country_id c) e) ∧
    (∀ k e, holds (channels_file w) k e → k ∉ country_id <$> countries →
       channels_data' !! k = Some e).
Proof.
  intros w countries.
  apply (main_completes_the_cache generous w (tick w) countries).
  - intros log id. by eexists.
  - vm_compute. reflexivity.
  - discriminate.
  - discriminate.
Defined.

End ChannelsExtras.

(** ** [generate-options.py]: the edges of a run *)

Module OptionsExtras.
Import Py PyFacts GenerateOptions OptionsProofs.

(** A run that generates had both documents, neither of them empty. *)
Lemma create_options_yml_generated (E : env) (countries_file : file countries_cache)
    (channels_file : file channels_dict) (out : generated) :
  create_options_yml E countries_file channels_file = Returns (Some out) →
  ∃ data channels_data,
    countries_file = Doc data ∧ channels_file = Doc channels_data ∧
    default [] (cache_data data) ≠ [] ∧ channels_data ≠ [] ∧
    let acc := build_channel_options (default [] (cache_data data)) channels_data in
    out = {| channel_options := sort_by str_lt (option_sort_key E) (channel_options acc);
             total_channels := total_channels acc;
             warnings := warnings acc |}.
Proof.
  unfold create_options_yml.
  destruct countries_file as [| |data], channels_file as [| |channels_data];
    simpl; try done.
  destruct (default [] (cache_data data)) as [|c countries] eqn:Hc; [done|].
  destruct channels_data as [|item channels_data]; [done|].
  simpl. intros [= <-]. eexists _, _. split_and!; try done; by rewrite Hc.
Qed.

(** X12.  How a run ends.  It raises the decoder's error exactly when a
    file it gets to read does not hold a document: [countries.json], or
    [channels.json], which it reads even when the countries are missing.
    Otherwise it leaves without generating exactly when a file is
    missing, the countries have no ["data"] or an empty one, or the keyed
    cache is empty; and it generates in every other case. *)
Theorem create_options_yml_outcomes (E : env) (countries_file : file countries_cache)
    (channels_file : file channels_dict) :
  match create_options_yml E countries_file channels_file with
  | Raises e =>
      e = JSONDecodeError ∧ (countries_file = Torn ∨ channels_file = Torn)
  | Returns None =>
      countries_file ≠ Torn ∧ channels_file ≠ Torn ∧
      (countries_file = Missing ∨ channels_file = Missing ∨
       (∃ data, countries_file = Doc data ∧ default [] (cache_data data) = []) ∨
       channels_file = Doc [])
  | Returns (Some out) =>
      ∃ data channels_data,
        countries_file = Doc data ∧ channels_file = Doc channels_data ∧
        default [] (cache_data data) ≠ [] ∧ channels_data ≠ []
  end.
Proof.
  destruct (create_options_yml E countries_file channels_file) as [[out|]|e] eqn:Hrun.
  - apply create_options_yml_generated in Hrun
      as (data & channels_data & ? & ? & ? & ? & _).
    by exists data, channels_data.
  - unfold create_options_yml in Hrun.
    destruct countries_file as [| |data], channels_file as [| |channels_data];
      simpl in Hrun; try done; split_and!; try done; try (by left); try (by right; left).
    destruct (default [] (cache_data data)) as [|c countries] eqn:Hc.
    + right. right. left. by exists data.
    + destruct channels_data; [|done]. by do 3 right.
  - unfold create_options_yml in Hrun.
    destruct countries_file as [| |data], channels_file as [| |channels_data];
      simpl in Hrun; simplify_eq; try (split; [done|]; by left); try (split; [done|]; by right).
    destruct (default [] (cache_data data)) as [|c countries]; [done|].
    by destruct channels_data.
Qed.

Lemma length_channel_adds (c : country) (channels : list channel) :
  (length (channels ≫= channel_adds c) ≤ length channels)%nat.
Proof.
  induction channels as [|ch channels IH]; [done|].
  rewrite bind_cons, length_app. unfold channel_adds at 1.
  destruct (carries_identifier ch); simpl; lia.
Qed.

(** X13.  Whenever a run generates, the number it reports as the total
    of channels is the number of options it hands on, and no more than
    the channels the keyed cache lists: the number in the about text and
    the number in the name of the field agree. *)
Theorem total_channels_counts_the_options (E : env)
    (countries_file : file countries_cache)
    (channels_file : file channels_dict) (out : generated) :
  create_options_yml E countries_file channels_file = Returns (Some out) →
  total_channels out = length (channel_options out) ∧
  ∃ channels_data, channels_file = Doc channels_data ∧
    (total_channels out
     ≤ length (channels_data ≫= λ item, default [] (entry_data item.2)))%nat.
Proof.
  intros (data & channels_data & -> & -> & _ & _ & ->)%create_options_yml_generated.
  simpl.
  destruct (build_channel_options_spec (default [] (cache_data data)) channels_data)
    as (Hopts & Htotal & _).
  split.
  - by rewrite sort_by_perm, Hopts, Htotal.
  - exists channels_data. split; [done|]. rewrite Htotal.
    clear. induction channels_data as [|item channels_data IH]; [done|].
    rewrite !bind_cons, !length_app. unfold item_adds at 1.
    destruct (country_map _ !! item.1).
    + pose proof (length_channel_adds c (default [] (entry_data item.2))). lia.
    + simpl. lia.
Qed.


(** *** Which country an id stands for *)

Lemma country_map_lookup_is_Some (countries : list country) (k : string) :
  k ∈ country_id <$> countries → is_Some (country_map countries !! k).
Proof.
  induction countries as [|c countries IH]; [by intros ?%elem_of_nil|].
  rewrite fmap_cons, country_map_cons. intros [->|Hin]%elem_of_cons.
  - destruct (country_map countries !! country_id c); [by eexists|].
    rewrite decide_True by done. by eexists.
  - destruct (IH Hin) as [c' ->]. by eexists.
Qed.

Lemma country_map_lookup_last (before after : list country) (c : country) :
  country_id c ∉ country_id <$> after →
  country_map (before ++ c :: after) !! country_id c = Some c.
Proof.
  intros Hafter. induction before as [|c' before IH]; simpl.
  - rewrite country_map_cons, (country_map_lookup_None _ _ Hafter).
    by rewrite decide_True.
  - change (c' :: before ++ c :: after) with (c' :: (before ++ c :: after)).
    by rewrite country_map_cons, IH.
Qed.

Lemma bind_channel_adds (c : country) (channels : list channel) :
  channels ≫= channel_adds c = option_entry c <$> filter carries_identifier channels.
Proof.
  induction channels as [|ch channels IH]; [done|].
  rewrite bind_cons, filter_cons, IH. unfold channel_adds at 1.
  by destruct (carries_identifier ch).
Qed.

(** X14.  Of several countries with one id the last in the list counts:
    the channels the keyed cache lists under the id get that country's
    display name, whatever the earlier ones are called. *)
Theorem last_country_of_an_id_names_the_options (before after : list country)
    (c : country) (entry : channels_entry) :
  country_id c ∉ country_id <$> after →
  let countries := before ++ c :: after in
  country_map countries !! country_id c = Some c ∧
  channel_options (build_channel_options countries [(country_id c, entry)])
  = option_entry c <$> filter carries_identifier (default [] (entry_data entry)).
Proof.
  intros Hafter countries.
  pose proof (country_map_lookup_last before after c Hafter) as Hlast.
  split; [done|].
  destruct (build_channel_options_spec countries [(country_id c, entry)]) as (-> & _ & _).
  rewrite bind_singleton. unfold item_adds. simpl. fold countries in Hlast.
  by rewrite Hlast, bind_channel_adds.
Qed.

(** X15.  The warnings of a run are one for every item of the keyed
    cache whose id no country has, in the order of the items; a run over
    a cache whose ids are all known prints none. *)
Theorem warnings_name_the_unknown_ids (E : env) (countries : list country)
    (channels_data : channels_dict) :
  warnings (build_channel_options countries channels_data)
  = unknown_country_warning
      <$> filter (λ id, id ∉ country_id <$> countries) channels_data.*1 ∧
  (∀ data, default [] (cache_data data) = countries →
     countries ≠ [] → channels_data ≠ [] →
     ∃ out, create_options_yml E (Doc data) (Doc channels_data) = Returns (Some out) ∧
       warnings out
       = unknown_country_warning
           <$> filter (λ id, id ∉ country_id <$> countries) channels_data.*1 ∧
       (Forall (λ id, id ∈ country_id <$> countries) channels_data.*1 →
        warnings out = [])).
Proof.
  assert (warnings (build_channel_options countries channels_data)
          = unknown_country_warning
              <$> filter (λ id, id ∉ country_id <$> countries) channels_data.*1)
    as Hwarn.
  { destruct (build_channel_options_spec countries channels_data) as (_ & _ & ->).
    induction channels_data as [|[id entry] channels_data IH]; [done|].
    rewrite bind_cons, IH. simpl. rewrite filter_cons. unfold item_warns. simpl.
    destruct (decide (id ∉ country_id <$> countries)) as [Hid|Hid].
    - by rewrite (country_map_lookup_None _ _ Hid).
    - apply dec_stable in Hid.
      by destruct (country_map_lookup_is_Some _ _ Hid) as [c ->]. }
  split; [done|].
  intros data <- Hc Hd. rewrite (create_options_yml_generates E data channels_data Hc Hd).
  eexists. split; [done|]. simpl. split; [done|].
  intros Hknown. rewrite Hwarn. clear Hwarn Hd.
  induction Hknown as [|id keys Hid _ IH]; [done|].
  rewrite filter_cons, decide_False by (intros Hn; by apply Hn). apply IH.
Qed.

(** *** The order of the countries *)

Lemma country_map_lookup_unique (countries : list country) (c : country) :
  NoDup (country_id <$> countries) → c ∈ countries →
  country_map countries !! country_id c = Some c.
Proof.
  induction countries as [|c' countries IH]; [by intros _ ?%elem_of_nil|].
  rewrite fmap_cons, NoDup_cons, country_map_cons.
  intros [Hc' Hnodup] [->|Hin]%elem_of_cons.
  - rewrite (country_map_lookup_None _ _ Hc'). by rewrite decide_True.
  - by rewrite (IH Hnodup Hin).
Qed.

Lemma country_map_perm (countries countries' : list country) :
  NoDup (country_id <$> countries) → countries ≡ₚ countries' →
  country_map countries = country_map countries'.
Proof.
  intros Hnodup Hperm.
  assert (NoDup (country_id <$> countries')) as Hnodup' by (by rewrite <-Hperm).
  apply map_eq. intros k.
  destruct (country_map countries !! k) as [c|] eqn:Hk.
  - apply country_map_lookup_Some in Hk as [Hin <-].
    symmetry. apply country_map_lookup_unique; [done|by rewrite <-Hperm].
  - destruct (country_map countries' !! k) as [c'|] eqn:Hk'; [|done].
    apply country_map_lookup_Some in Hk' as [Hin <-].
    rewrite country_map_lookup_unique in Hk; [done|done|by rewrite Hperm].
Qed.

(** X16.  When no two countries share an id, the order of the countries
    in [countries.json] does not matter: a run over the same countries in
    another order ends the same way, with the same options in the same
    order, the same count and the same warnings. *)
Theorem the_order_of_the_countries_does_not_matter (E : env)
    (countries countries' : list country) (channels_file : file channels_dict) :
  NoDup (country_id <$> countries) → countries ≡ₚ countries' →
  create_options_yml E (Doc {| cache_data := Some countries |}) channels_file
  = create_options_yml E (Doc {| cache_data := Some countries' |}) channels_file.
Proof.
  intros Hnodup Hperm. unfold create_options_yml, build_channel_options. simpl.
  rewrite (country_map_perm _ _ Hnodup Hperm).
  destruct channels_file as [| |channels_data]; simpl; [done|done|].
  destruct countries as [|c countries].
  - by apply Permutation_nil_l in Hperm as ->.
  - destruct countries' as [|c' countries'];
      [by apply Permutation_nil_r in Hperm|done].
Qed.
(** *** The properties at work on the example files *)

Import OptionsScenario OptionsScenarioMore.

Lemma total_channels_counts_the_options_witness :
  let out := {| channel_options := generated_options;
                total_channels := 4;
                warnings := ["Warning: Country ID 9 not found in countries data"] |} in
  total_channels out = length (channel_options out) ∧
  ∃ channels_data, Doc channels_json = Doc channels_data ∧
    (total_channels out
     ≤ length (channels_data ≫= λ item, default [] (entry_data item.2)))%nat.
Proof.
  intros out.
  apply (total_channels_counts_the_options on_ascii (Doc countries_json) (Doc channels_json) out).
  reflexivity.
Defined.

Lemma last_country_of_an_id_names_the_options_witness :
  let countries := [country_x_before] ++ country_x :: [apple] in
  country_map countries !! "1" = Some country_x ∧
  channel_options (build_channel_options countries [("1", listing [sports; radio; news])])
  = [("Country X - Sports", "c2|Sports"); ("Country X - News", "c1|News")].
Proof.
  apply (last_country_of_an_id_names_the_options [country_x_before] [apple] country_x
           (listing [sports; radio; news])).
  simpl. absent.
Defined.

Lemma warnings_name_the_unknown_ids_witness :
  ∃ out, create_options_yml on_ascii (Doc countries_json) (Doc channels_json) = Returns (Some out) ∧
    warnings out = ["Warning: Country ID 9 not found in countries data"].
Proof.
  destruct (warnings_name_the_unknown_ids on_ascii [country_x; apple; banana] channels_json)
    as [_ Hrun].
  destruct (Hrun countries_json) as (out & Hout & Hwarn & _); [done..|].
  exists out. split; [exact Hout|]. rewrite Hwarn. reflexivity.
Defined.

Lemma the_order_of_the_countries_does_not_matter_witness :
  create_options_yml on_ascii (Doc {| cache_data := Some [country_x; apple; banana] |})
    (Doc channels_json)
  = create_options_yml on_ascii (Doc {| cache_data := Some [banana; country_x; apple] |})
      (Doc channels_json).
Proof.
  apply (the_order_of_the_countries_does_not_matter on_ascii
           [country_x; apple; banana] [banana; country_x; apple] (Doc channels_json)).
  - simpl. repeat (apply NoDup_cons; split; [absent|]). apply NoDup_nil_2.
  - change [banana; country_x; apple] with ([banana] ++ [country_x; apple]).
    change [country_x; apple; banana] with ([country_x; apple] ++ [banana]).
    apply Permutation_app_comm.
Defined.

End OptionsExtras.

(** ** [generate-stub-data.py] *)

Module StubDataProofs.
Import Py PyText GenerateChannels (response, Payload, RequestException).
Import GenerateStubData.

(** *** Stripping *)

Lemma lstrip_starts_solid (s : string) : starts_solid (lstrip s).
Proof.
  induction s as [|c s IH]; [done|]. simpl.
  by destruct (is_space c) eqn:Hc.
Qed.

Lemma lstrip_solid (s : string) : starts_solid s → lstrip s = s.
Proof. destruct s as [|c s]; [done|]. simpl. by intros ->. Qed.

Lemma rstrip_starts_solid (s : string) : starts_solid s → starts_solid (rstrip s).
Proof.
  destruct s as [|c s]; [done|]. simpl. intros Hc.
  destruct (rstrip s); simpl; by rewrite ?Hc.
Qed.

Lemma rstrip_idem (s : string) : rstrip (rstrip s) = rstrip s.
Proof.
  induction s as [|c s IH]; [done|]. simpl.
  destruct (rstrip s) as [|d r] eqn:Hr.
  - destruct (is_space c) eqn:Hc; simpl; by rewrite ?Hc.
  - cbn [rstrip] in *. by rewrite IH.
Qed.

Lemma strip_idem (s : string) : strip (strip s) = strip s.
Proof.
  unfold strip. rewrite (lstrip_solid (rstrip (lstrip s))).
  - apply rstrip_idem.
  - apply rstrip_starts_solid, lstrip_starts_solid.
Qed.

Lemma chars_lstrip (s : string) (c : ascii) : c ∈ chars (lstrip s) → c ∈ chars s.
Proof.
  induction s as [|d s IH]; [done|]. simpl.
  destruct (is_space d); [|done]. intros ?%IH. by right.
Qed.

Lemma chars_rstrip (s : string) (c : ascii) : c ∈ chars (rstrip s) → c ∈ chars s.
Proof.
  induction s as [|d s IH]; [done|]. simpl.
  destruct (rstrip s) as [|e r].
  - destruct (is_space d); simpl; [by intros ?%elem_of_nil|].
    intros [->|?%elem_of_nil]%elem_of_cons; [by left|done].
  - intros [->|Hin]%elem_of_cons; [by left|]. right. by apply IH.
Qed.

Lemma chars_strip (s : string) (c : ascii) : c ∈ chars (strip s) → c ∈ chars s.
Proof. intros ?%chars_rstrip. by apply chars_lstrip. Qed.


Lemma lstrip_empty (s : string) :
  lstrip s = "" ↔ Forall (λ c, is_space c = true) (chars s).
Proof.
  induction s as [|c s IH]; simpl; [by split; [constructor|] |].
  rewrite Forall_cons. destruct (is_space c).
  - rewrite IH. intuition.
  - intuition discriminate.
Qed.

Lemma strip_empty (s : string) :
  strip s = "" ↔ Forall (λ c, is_space c = true) (chars s).
Proof.
  rewrite <-lstrip_empty. unfold strip.
  pose proof (lstrip_starts_solid s) as Hsolid.
  destruct (lstrip s) as [|c t]; [done|]. simpl in *.
  destruct (rstrip t); by rewrite ?Hsolid.
Qed.

(** *** Splitting *)

Lemma split_not_nil (sep : ascii) (s : string) : split sep s ≠ [].
Proof.
  destruct s as [|c s]; [done|]. simpl.
  destruct (Ascii.eqb c sep); [done|]. by destruct (split sep s).
Qed.

Lemma split_pieces_without_sep (sep : ascii) (s : string) :
  Forall (λ piece, sep ∉ chars piece) (split sep s).
Proof.
  induction s as [|c s IH]; simpl.
  - constructor; [apply not_elem_of_nil|constructor].
  - destruct (Ascii.eqb_spec c sep) as [->|Hne].
    + constructor; [apply not_elem_of_nil|done].
    + destruct (split sep s) as [|piece pieces].
      * constructor; [|done]. simpl. rewrite not_elem_of_cons.
        split; [done|apply not_elem_of_nil].
      * apply Forall_cons in IH as [Hpiece Hpieces]. constructor; [|done].
        simpl. rewrite not_elem_of_cons. by split.
Qed.

Lemma split_whole (sep : ascii) (s : string) :
  sep ∉ chars s → split sep s = [s].
Proof.
  induction s as [|c s IH]; [done|]. simpl.
  rewrite not_elem_of_cons. intros [Hne Hs].
  destruct (Ascii.eqb_spec c sep) as [->|_]; [done|]. by rewrite (IH Hs).
Qed.

Lemma split_app (sep : ascii) (piece rest : string) :
  sep ∉ chars piece →
  split sep (piece +:+ String sep rest) = piece :: split sep rest.
Proof.
  induction piece as [|c piece IH]; simpl.
  - intros _. by rewrite Ascii.eqb_refl.
  - rewrite not_elem_of_cons. intros [Hne Hpiece].
    destruct (Ascii.eqb_spec c sep) as [->|_]; [done|]. by rewrite (IH Hpiece).
Qed.

Lemma split_join (ids : list string) :
  ids ≠ [] → Forall (λ id, ","%char ∉ chars id) ids →
  split "," (join "," ids) = ids.
Proof.
  induction ids as [|id ids IH]; [done|]. intros _ [Hid Hids]%Forall_cons.
  destruct ids as [|id' ids].
  - by apply split_whole.
  - change (join "," (id :: id' :: ids))
      with (id +:+ String "," (join "," (id' :: ids))).
    rewrite (split_app _ _ _ Hid), IH; done.
Qed.

(** *** The channel ids *)

Lemma channel_ids_of_pieces (pieces : list string) :
  Forall clean pieces →
  (pieces ≫= λ ch_id, if truthy (strip ch_id) then [strip ch_id] else []) = pieces.
Proof.
  induction 1 as [|id ids (Hne & _ & Hstrip) _ IH]; [done|].
  rewrite bind_cons, IH, Hstrip. by destruct id.
Qed.

(** X17.  Every channel id the script takes from an ASCII
    [TEST_CHANNEL_IDS] is clean: it is not empty, holds no comma and
    neither begins nor ends with whitespace. *)
Theorem channel_ids_are_clean (test_channel_ids : string) :
  isascii test_channel_ids = true →
  Forall clean (channel_ids_of test_channel_ids).
Proof.
  intros _. unfold channel_ids_of. apply Forall_bind.
  eapply Forall_impl; [apply (split_pieces_without_sep "," test_channel_ids)|].
  intros piece Hpiece. simpl.
  destruct (strip piece) as [|c t] eqn:Hstrip; simpl; [constructor|].
  constructor; [|constructor]. split_and!.
  - done.
  - intros Hin. apply Hpiece, chars_strip. by rewrite Hstrip.
  - by rewrite <-Hstrip, strip_idem.
Qed.

(** X18.  Clean ASCII ids written with commas between them are read
    back as they are: joining and reading is the identity on lists of
    clean ids. *)
Theorem channel_ids_round_trip (ids : list string) :
  Forall (λ id, isascii id = true) ids →
  Forall clean ids → channel_ids_of (join "," ids) = ids.
Proof.
  intros _ Hclean. unfold channel_ids_of.
  destruct ids as [|id ids]; [done|].
  rewrite split_join; [by apply channel_ids_of_pieces|done|].
  eapply Forall_impl; [exact Hclean|]. by intros ? (_ & ? & _).
Qed.

Lemma pieces_all_space (s : string) :
  Forall (λ piece, strip piece = "") (split "," s)
  ↔ Forall (λ c, c = ","%char ∨ is_space c = true) (chars s).
Proof.
  induction s as [|c s IH]; simpl.
  - split; [constructor|]. intros _. by repeat constructor.
  - rewrite Forall_cons, <-IH. destruct (Ascii.eqb_spec c ",") as [->|Hne].
    + rewrite Forall_cons. intuition.
    + pose proof (split_not_nil "," s).
      destruct (split "," s) as [|piece pieces]; [done|].
      rewrite !Forall_cons, !strip_empty. simpl. rewrite Forall_cons.
      intuition.
Qed.

(** X19.  In ASCII text the script finds no id exactly when the text
    is commas and whitespace only.  With such a [TEST_CHANNEL_IDS] it
    sends no request and writes no file, whatever the API key: it fails
    at the top or leaves [main] at once. *)
Theorem nothing_to_fetch_in_a_blank_list (E : env) (w : world) :
  (∀ s, isascii s = true → (channel_ids_of s = [] ↔ blank s)) ∧
  (isascii (TEST_CHANNEL_IDS E) = true → blank (TEST_CHANNEL_IDS E) →
   (script E w).2 = w ∧ ∀ numbers, (script E w).1 ≠ Finished (Some numbers)).
Proof.
  assert (∀ s, channel_ids_of s = [] ↔ blank s) as Hblank.
  { intros s. unfold blank. rewrite <-pieces_all_space. unfold channel_ids_of.
    induction (split "," s) as [|piece pieces IH]; [by split; [constructor|] |].
    rewrite bind_cons, Forall_cons, <-IH.
    destruct (strip piece); simpl; intuition discriminate. }
  split; [by intros s _|]. intros _ Hnone%Hblank. unfold script, main. rewrite Hnone.
  destruct (negb _); [done|]. destruct (negb _); [done|]. by destruct (negb _).
Qed.

(** *** The loop *)

(** One turn of the loop, by what the API answers and whether the file
    can be opened. *)
Lemma fetch_all_step (E : env) id rest (n : nat) (w : world) :
  fetch_all E (id :: rest) n w
  = match api_programs E (requests w) id with
    | Payload programs =>
        if can_open E (file_name id) then
          fetch_all E rest (S n)
            {| stub_files := <[file_name id := programs]> (stub_files w);
               requests := requests w ++ [id] |}
        else
          (Failed OSError,
           {| stub_files := stub_files w; requests := requests w ++ [id] |})
    | RequestException _ =>
        fetch_all E rest n
          {| stub_files := stub_files w; requests := requests w ++ [id] |}
    end.
Proof.
  simpl. unfold fetch_channel_programs.
  destruct (api_programs E (requests w) id); [|done].
  by destruct (can_open E (file_name id)).
Qed.

Lemma fetch_all_app (E : env) before rest (n n1 : nat) (w w1 : world) :
  fetch_all E before n w = (Finished n1, w1) →
  fetch_all E (before ++ rest) n w = fetch_all E rest n1 w1.
Proof.
  revert n w. induction before as [|id before IH]; intros n w.
  - simpl. by intros [= -> ->].
  - change ((id :: before) ++ rest) with (id :: (before ++ rest)).
    rewrite !fetch_all_step.
    destruct (api_programs E (requests w) id); [|apply IH].
    destruct (can_open E (file_name id)); [apply IH|done].
Qed.

(** X20.  When every file the run needs can be opened, the loop goes
    through all the ids, whatever the API answers: it requests each id
    once, in order, and stops for no failure, not even one that reads as a
    rate limit; the fetched and the failed of the summary add up to the
    total, which is the number of ids. *)
Theorem main_requests_every_id (E : env) (w : world) :
  let channel_ids := channel_ids_of (TEST_CHANNEL_IDS E) in
  isascii (TEST_CHANNEL_IDS E) = true →
  channel_ids ≠ [] →
  (∀ id, id ∈ channel_ids → can_open E (file_name id) = true) →
  ∃ numbers w',
    main E w = (Finished (Some numbers), w') ∧
    requests w' = requests w ++ channel_ids ∧
    total numbers = length channel_ids ∧
    (fetched numbers + failed numbers = total numbers)%nat.
Proof.
  intros channel_ids _ Hne Hopen.
  assert (∀ ids n w0, (∀ id, id ∈ ids → can_open E (file_name id) = true) →
            ∃ m w', fetch_all E ids n w0 = (Finished (n + m)%nat, w') ∧
                    (m ≤ length ids)%nat ∧ requests w' = requests w0 ++ ids)
    as Hloop.
  { induction ids as [|id ids IH]; intros n w0 Hids.
    - exists 0%nat, w0. by rewrite Nat.add_0_r, app_nil_r.
    - rewrite fetch_all_step. rewrite (Hids id) by (by left).
      assert (∀ id', id' ∈ ids → can_open E (file_name id') = true) as Hrest
        by (intros id' ?; apply Hids; by right).
      destruct (api_programs E (requests w0) id) as [programs|text].
      + destruct (IH (S n) {| stub_files := <[file_name id := programs]> (stub_files w0);
                              requests := requests w0 ++ [id] |} Hrest)
          as (m & w' & -> & Hm & Hreq).
        exists (S m), w'. simpl in *. rewrite Hreq, <-app_assoc.
        split_and!; [f_equal; f_equal; lia|lia|done].
      + destruct (IH n {| stub_files := stub_files w0;
                          requests := requests w0 ++ [id] |} Hrest)
          as (m & w' & -> & Hm & Hreq).
        exists m, w'. simpl in *. rewrite Hreq, <-app_assoc.
        split_and!; [done|lia|done]. }
  destruct (Hloop channel_ids 0%nat w Hopen) as (m & w' & Hrun & Hm & Hreq).
  unfold main. fold channel_ids. rewrite Hrun.
  destruct channel_ids as [|id ids] eqn:Hids; [done|].
  eexists _, w'. split; [done|]. simpl in *. split_and!; [done|done|lia].
Qed.

(** X21.  The loop writes no file but those of the ids it is given, and
    removes none: after it, whether it finished or failed, every file of
    the stub directory is the file that was there before, or the file of
    one of the ids. *)
Theorem fetch_all_writes_only_the_files_of_its_ids (E : env)
    (channel_ids : list string) (n : nat) (w w' : world) (r : outcome nat) :
  fetch_all E channel_ids n w = (r, w') →
  (∀ name, is_Some (stub_files w !! name) → is_Some (stub_files w' !! name)) ∧
  (∀ name, stub_files w' !! name = stub_files w !! name ∨
           ∃ id, id ∈ channel_ids ∧ name = file_name id).
Proof.
  revert n w. induction channel_ids as [|id ids IH]; intros n w.
  - simpl. intros [= _ <-]. split; [done|]. by left.
  - rewrite fetch_all_step.
    destruct (api_programs E (requests w) id) as [programs|text].
    + destruct (can_open E (file_name id)).
      * intros [Hkeep Hfrom]%IH. simpl in *. split.
        -- intros name Hname. apply Hkeep.
           destruct (decide (file_name id = name)) as [->|].
           ++ rewrite lookup_insert_eq. by eexists.
           ++ by rewrite lookup_insert_ne.
        -- intros name. destruct (Hfrom name) as [Hsame|(id' & Hin & ->)].
           ++ destruct (decide (file_name id = name)) as [<-|].
              ** right. exists id. split; [by left|done].
              ** left. by rewrite Hsame, lookup_insert_ne.
           ++ right. exists id'. split; [by right|done].
      * intros [= _ <-]. simpl. split; [done|]. by left.
    + intros [Hkeep Hfrom]%IH. simpl in *. split; [done|].
      intros name. destruct (Hfrom name) as [Hsame|(id' & Hin & ->)]; [by left|].
      right. exists id'. split; [by right|done].
Qed.

(** X22.  A file that cannot be opened ends the run.  When the ids
    before it have been gone through and the API answers for the id, but
    its file cannot be opened for writing, [main] fails with [OSError]:
    the request for the id is the last one sent, no id after it is
    requested, and the files are as the ids before left them. *)
Theorem main_fails_where_a_file_cannot_be_opened (E : env)
    (before after : list string) (id : string) (n1 : nat) (w w1 : world)
    (programs_of_id : programs) :
  isascii (TEST_CHANNEL_IDS E) = true →
  channel_ids_of (TEST_CHANNEL_IDS E) = before ++ id :: after →
  fetch_all E before 0 w = (Finished n1, w1) →
  api_programs E (requests w1) id = Payload programs_of_id →
  can_open E (file_name id) = false →
  main E w
  = (Failed OSError,
     {| stub_files := stub_files w1; requests := requests w1 ++ [id] |}).
Proof.
  intros _ Hids Hbefore Hapi Hopen. unfold main. rewrite Hids.
  rewrite (fetch_all_app _ _ _ _ _ _ _ Hbefore), fetch_all_step, Hapi, Hopen.
  by destruct before.
Qed.
(** *** The properties at work on the example runs *)

Import StubScenario.

(** The ids of the example: spaces around them go, the empty piece
    between two commas is skipped. *)
Example channel_ids_of_example :
  channel_ids_of " 101, 202 ,,303 " = ["101"; "202"; "303"].
Proof. reflexivity. Qed.

Lemma channel_ids_are_clean_witness :
  Forall clean (channel_ids_of " 101, 202 ,,303 ").
Proof. apply (channel_ids_are_clean " 101, 202 ,,303 "). reflexivity. Defined.

Lemma channel_ids_round_trip_witness :
  channel_ids_of (join "," ["101"; "b-7"; "x y"]) = ["101"; "b-7"; "x y"].
Proof.
  apply (channel_ids_round_trip ["101"; "b-7"; "x y"]);
    [by repeat constructor|].
  repeat (apply Forall_cons_2; [|]); [| | |apply Forall_nil_2];
    (split; [discriminate|split; [|reflexivity]]);
    simpl; intros H;
    repeat (apply elem_of_cons in H as [H|H]; [discriminate H|]);
    by apply elem_of_nil in H.
Defined.

Lemma nothing_to_fetch_in_a_blank_list_witness :
  channel_ids_of " , , ," = [] ∧
  (script blank_env empty_stub_dir).2 = empty_stub_dir ∧
  ∀ numbers, (script blank_env empty_stub_dir).1 ≠ Finished (Some numbers).
Proof.
  assert (Hblank : blank " , , ,").
  { unfold blank. simpl.
    repeat (apply Forall_cons_2; [first [by left | by right]|]). apply Forall_nil_2. }
  destruct (nothing_to_fetch_in_a_blank_list blank_env empty_stub_dir) as [Hiff Hrun].
  split; [by apply Hiff|]. by apply Hrun.
Defined.

Lemma main_requests_every_id_witness :
  let channel_ids := channel_ids_of (TEST_CHANNEL_IDS (stub_env false)) in
  ∃ numbers w',
    main (stub_env false) empty_stub_dir = (Finished (Some numbers), w') ∧
    requests w' = requests empty_stub_dir ++ channel_ids ∧
    total numbers = length channel_ids ∧
    (fetched numbers + failed numbers = total numbers)%nat.
Proof.
  apply (main_requests_every_id (stub_env false) empty_stub_dir).
  - reflexivity.
  - vm_compute. discriminate.
  - intros id _. reflexivity.
Defined.

Lemma fetch_all_writes_only_the_files_of_its_ids_witness :
  let channel_ids := ["101"; "202"; "303"] in
  let w' := (fetch_all (stub_env false) channel_ids 0 after_101).2 in
  (∀ name, is_Some (stub_files after_101 !! name) → is_Some (stub_files w' !! name)) ∧
  (∀ name, stub_files w' !! name = stub_files after_101 !! name ∨
           ∃ id, id ∈ channel_ids ∧ name = file_name id).
Proof.
  intros channel_ids w'.
  apply (fetch_all_writes_only_the_files_of_its_ids (stub_env false) channel_ids 0
           after_101 w' (fetch_all (stub_env false) channel_ids 0 after_101).1).
  vm_compute. reflexivity.
Defined.

Lemma main_fails_where_a_file_cannot_be_opened_witness :
  main (stub_env true) empty_stub_dir
  = (Failed OSError,
     {| stub_files := stub_files after_101; requests := requests after_101 ++ ["202"] |}).
Proof.
  apply (main_fails_where_a_file_cannot_be_opened (stub_env true)
           ["101"] ["303"] "202" 1 empty_stub_dir after_101 (programs_of "202")).
  - reflexivity.
  - reflexivity.
  - vm_compute. reflexivity.
  - reflexivity.
  - reflexivity.
Defined.

End StubDataProofs.
